(** * Kinetic text engine: TextScramble and WordRotator

    A shallow embedding of the text-scramble transition and the word
    rotation cycle of [kinetic-text.js], with the browser facilities they
    use (one DOM element, promises, animation-frame callbacks, timers, the
    microtask queue and [Math.random]) kept as an explicit host state. *)

From Stdlib Require Import List ZArith QArith Qround Lia Bool Arith.
Import ListNotations.

Local Open Scope Z_scope.

(** ** JavaScript values used by the module *)

(** A JavaScript string is a sequence of UTF-16 code units; [s[i]] and
    [s.length] count code units. *)
Definition jschar := N.
Definition jsstring := list jschar.

Definition js_length {A : Type} (s : list A) : Z := Z.of_nat (length s).

(** [s[i]]: a one-unit string, or [undefined] ([None]) out of range. *)
Definition js_index (s : jsstring) (i : Z) : option jsstring :=
  if i <? 0 then None
  else match nth_error s (Z.to_nat i) with
       | Some c => Some [c]
       | None => None
       end.

(** [a[i]] on an array of strings. *)
Definition js_array_index (a : list jsstring) (i : Z) : option jsstring :=
  if i <? 0 then None else nth_error a (Z.to_nat i).

(** [v || ''] for [v] a string or [undefined]: the empty string is falsy. *)
Definition or_empty (v : option jsstring) : jsstring :=
  match v with
  | Some (c :: s) => c :: s
  | _ => []
  end.

(** [!v] for [v] a string or [undefined]. *)
Definition js_not (v : option jsstring) : bool :=
  match v with
  | Some (_ :: _) => false
  | _ => true
  end.

(** [`${v}`]: [undefined] prints as the word itself. *)
Definition undefined_text : jsstring :=
  [117; 110; 100; 101; 102; 105; 110; 101; 100]%N.

Definition template_text (v : option jsstring) : jsstring :=
  match v with
  | Some s => s
  | None => undefined_text
  end.

Definition Math_floor (q : Q) : Z := Qfloor q.

(** The double nearest to the literal [0.28]. *)
Definition refresh_threshold : Q := 1261007895663739 # 4503599627370496.

Definition Qlt_bool (a b : Q) : bool := negb (Qle_bool b a).

(** Abrupt completion of a call. *)
Inductive JsError : Type := TypeError.

Inductive Completion (A : Type) : Type :=
| Normal (a : A)
| Throw (e : JsError).
Arguments Normal {A} a.
Arguments Throw {A} e.

Definition bind {A B : Type} (m : Completion A) (f : A -> Completion B)
  : Completion B :=
  match m with
  | Normal a => f a
  | Throw e => Throw e
  end.

Notation "'do' x <- m ; f" := (bind m (fun x => f))
  (at level 10, x pattern, m at level 100, f at level 200).

(** ** Host state *)

(** The element driven by the scrambler.  [innerHTML] is the markup last
    assigned to it, [textContent] the text a read of [el.textContent]
    returns. *)
Record Element : Type := {
  innerHTML : jsstring;
  textContent : jsstring
}.

(** The continuation passed to [then] in [WordRotator.next]. *)
Inductive Job : Type := ScheduleNext.

Inductive PromiseState : Type := Pending | Fulfilled.

(** [resolveCalls] counts the invocations of the promise's resolve function
    (a ghost counter; the promise settles at the first one). *)
Record Promise : Type := {
  pstate : PromiseState;
  reactions : list Job;
  resolveCalls : nat
}.

Record Host : Type := {
  dom : Element;
  promises : list Promise;
  (* handles of the pending animation-frame callbacks (each is
     [TextScramble.update]), in registration order *)
  rafCallbacks : list nat;
  rafCounter : nat;
  (* pending timeouts (each calls [WordRotator.next]): id and delay *)
  timers : list (nat * Z);
  timerCounter : nat;
  microtasks : list Job;
  (* number of [Math.random] draws made so far *)
  drawn : nat
}.

Definition with_dom (e : Element) (h : Host) : Host :=
  {| dom := e; promises := promises h; rafCallbacks := rafCallbacks h;
     rafCounter := rafCounter h; timers := timers h;
     timerCounter := timerCounter h; microtasks := microtasks h;
     drawn := drawn h |}.

Definition with_promises (ps : list Promise) (h : Host) : Host :=
  {| dom := dom h; promises := ps; rafCallbacks := rafCallbacks h;
     rafCounter := rafCounter h; timers := timers h;
     timerCounter := timerCounter h; microtasks := microtasks h;
     drawn := drawn h |}.

Definition with_raf (cbs : list nat) (n : nat) (h : Host) : Host :=
  {| dom := dom h; promises := promises h; rafCallbacks := cbs;
     rafCounter := n; timers := timers h;
     timerCounter := timerCounter h; microtasks := microtasks h;
     drawn := drawn h |}.

Definition with_timers (ts : list (nat * Z)) (n : nat) (h : Host) : Host :=
  {| dom := dom h; promises := promises h; rafCallbacks := rafCallbacks h;
     rafCounter := rafCounter h; timers := ts;
     timerCounter := n; microtasks := microtasks h;
     drawn := drawn h |}.

Definition with_microtasks (js : list Job) (h : Host) : Host :=
  {| dom := dom h; promises := promises h; rafCallbacks := rafCallbacks h;
     rafCounter := rafCounter h; timers := timers h;
     timerCounter := timerCounter h; microtasks := js;
     drawn := drawn h |}.

Definition with_drawn (k : nat) (h : Host) : Host :=
  {| dom := dom h; promises := promises h; rafCallbacks := rafCallbacks h;
     rafCounter := rafCounter h; timers := timers h;
     timerCounter := timerCounter h; microtasks := microtasks h;
     drawn := k |}.

(** A page holding the element and nothing scheduled. *)
Definition fresh_host (e : Element) : Host :=
  {| dom := e; promises := []; rafCallbacks := []; rafCounter := 0%nat;
     timers := []; timerCounter := 0%nat; microtasks := []; drawn := 0%nat |}.

Fixpoint list_set {A : Type} (i : nat) (x : A) (l : list A) : list A :=
  match l, i with
  | [], _ => []
  | _ :: r, O => x :: r
  | y :: r, S j => y :: list_set j x r
  end.

(** [new Promise(resolve => ...)]: the promise is named by its position in
    the table; the executor receives its resolve function. *)
Definition new_Promise (h : Host) : nat * Host :=
  (length (promises h),
   with_promises
     (promises h ++ [{| pstate := Pending; reactions := []; resolveCalls := 0 |}])
     h).

(** Calling the resolve function of promise [p] (with no argument): the first
    call fulfils the promise and queues its reactions; later calls do
    nothing. *)
Definition resolve_promise (p : nat) (h : Host) : Host :=
  match nth_error (promises h) p with
  | None => h
  | Some pr =>
      match pstate pr with
      | Pending =>
          with_microtasks (microtasks h ++ reactions pr)
            (with_promises
               (list_set p {| pstate := Fulfilled; reactions := [];
                              resolveCalls := S (resolveCalls pr) |}
                  (promises h)) h)
      | Fulfilled =>
          with_promises
            (list_set p {| pstate := Fulfilled; reactions := reactions pr;
                           resolveCalls := S (resolveCalls pr) |}
               (promises h)) h
      end
  end.

(** [p.then(job)]: registered while pending, queued at once when already
    fulfilled. *)
Definition promise_then (p : nat) (j : Job) (h : Host) : Host :=
  match nth_error (promises h) p with
  | None => h
  | Some pr =>
      match pstate pr with
      | Pending =>
          with_promises
            (list_set p {| pstate := Pending; reactions := reactions pr ++ [j];
                           resolveCalls := resolveCalls pr |}
               (promises h)) h
      | Fulfilled => with_microtasks (microtasks h ++ [j]) h
      end
  end.

Definition requestAnimationFrame (h : Host) : nat * Host :=
  let handle := S (rafCounter h) in
  (handle, with_raf (rafCallbacks h ++ [handle]) handle h).

(** [cancelAnimationFrame(x)]; [null] names no callback. *)
Definition cancelAnimationFrame (x : option nat) (h : Host) : Host :=
  match x with
  | None => h
  | Some handle =>
      with_raf (filter (fun y => negb (Nat.eqb y handle)) (rafCallbacks h))
        (rafCounter h) h
  end.

Definition setTimeout (delay : Z) (h : Host) : nat * Host :=
  let id := S (timerCounter h) in
  (id, with_timers (timers h ++ [(id, delay)]) id h).

Definition clearTimeout (x : option nat) (h : Host) : Host :=
  match x with
  | None => h
  | Some id =>
      with_timers (filter (fun t => negb (Nat.eqb (fst t) id)) (timers h))
        (timerCounter h) h
  end.

(** ** TextScramble *)

Record Task : Type := {
  from : jsstring;
  to : jsstring;
  start : Z;
  end_ : Z;
  char : option jsstring
}.

(** [this.el] refers to the host's element. *)
Record TextScramble : Type := {
  chars : jsstring;
  frameRequest : option nat;
  frame : Z;
  queue : list Task;
  resolve : option nat
}.

Definition glyphs : jsstring :=
  [33; 60; 62; 45; 95; 92; 47; 91; 93; 123; 125; 8212; 61; 43; 42; 94; 63;
   35]%N.

(** [<span class="scramble-char">] and [</span>]. *)
Definition span_open : jsstring :=
  [60; 115; 112; 97; 110; 32; 99; 108; 97; 115; 115; 61; 34; 115; 99; 114;
   97; 109; 98; 108; 101; 45; 99; 104; 97; 114; 34; 62]%N.
Definition span_close : jsstring := [60; 47; 115; 112; 97; 110; 62]%N.

Definition new_TextScramble : TextScramble :=
  {| chars := glyphs; frameRequest := None; frame := 0; queue := [];
     resolve := None |}.

Definition with_frameRequest (x : option nat) (t : TextScramble) :=
  {| chars := chars t; frameRequest := x; frame := frame t;
     queue := queue t; resolve := resolve t |}.
Definition with_frame (f : Z) (t : TextScramble) :=
  {| chars := chars t; frameRequest := frameRequest t; frame := f;
     queue := queue t; resolve := resolve t |}.
Definition with_queue (q : list Task) (t : TextScramble) :=
  {| chars := chars t; frameRequest := frameRequest t; frame := frame t;
     queue := q; resolve := resolve t |}.
Definition with_resolve (p : option nat) (t : TextScramble) :=
  {| chars := chars t; frameRequest := frameRequest t; frame := frame t;
     queue := queue t; resolve := p |}.

Definition with_char (c : option jsstring) (t : Task) : Task :=
  {| from := from t; to := to t; start := start t; end_ := end_ t;
     char := c |}.


(** ** WordRotator *)

(** The [options] argument of the constructor: [None] when it carries no
    [interval] key. *)
Record Options : Type := { opt_interval : option Z }.

(** [interval] is [this.options.interval]; [this.el] refers to the host's
    element. *)
Record WordRotator : Type := {
  words : list jsstring;
  interval : Z;
  currentIndex : Z;
  scrambler : TextScramble;
  timeoutId : option nat
}.

(** The fields the constructor sets before it calls [start]. *)
Definition initial_rotator (ws : list jsstring) (o : Options) : WordRotator :=
  {| words := ws;
     interval := match opt_interval o with Some i => i | None => 3000 end;
     currentIndex := 0;
     scrambler := new_TextScramble;
     timeoutId := None |}.

Definition with_currentIndex (i : Z) (r : WordRotator) :=
  {| words := words r; interval := interval r; currentIndex := i;
     scrambler := scrambler r; timeoutId := timeoutId r |}.
Definition with_scrambler (t : TextScramble) (r : WordRotator) :=
  {| words := words r; interval := interval r;
     currentIndex := currentIndex r; scrambler := t;
     timeoutId := timeoutId r |}.
Definition with_timeoutId (x : option nat) (r : WordRotator) :=
  {| words := words r; interval := interval r;
     currentIndex := currentIndex r; scrambler := scrambler r;
     timeoutId := x |}.

(** The [data-words] and [data-interval] attributes of an element;
    [None] when the attribute is absent. *)
Record Dataset : Type := {
  data_words : option jsstring;
  data_interval : option jsstring
}.

(** [s.split(sep)] for a one-unit separator; [cur] is the piece being
    read. *)
Fixpoint split_from (sep : jschar) (cur s : jsstring) : list jsstring :=
  match s with
  | [] => [cur]
  | c :: r =>
      if N.eqb c sep then cur :: split_from sep [] r
      else split_from sep (cur ++ [c]) r
  end.

Definition split (sep : jschar) (s : jsstring) : list jsstring :=
  split_from sep [] s.

(** White space and line terminators, as [String.prototype.trim] sees
    them. *)
Definition is_space (c : jschar) : bool :=
  ((9 <=? c) && (c <=? 13) || (c =? 32) || (c =? 160) || (c =? 5760)
   || (8192 <=? c) && (c <=? 8202) || (c =? 8232) || (c =? 8233)
   || (c =? 8239) || (c =? 8287) || (c =? 12288) || (c =? 65279))%N.

Fixpoint trim_start (s : jsstring) : jsstring :=
  match s with
  | c :: r => if is_space c then trim_start r else s
  | [] => []
  end.

Definition trim (s : jsstring) : jsstring :=
  rev (trim_start (rev (trim_start s))).

Definition comma : jschar := 44%N.

(** The element after [el.innerHTML = output]. *)
Definition rendered (text_of_html : jsstring -> jsstring) (output : jsstring)
  : Element :=
  {| innerHTML := output; textContent := text_of_html output |}.

Section Engine.

(** [Math.random]: the [k]-th draw of the page. *)
Variable random : nat -> Q.

(** The text content of the tree the browser builds from a markup string
    assigned to [innerHTML]. *)
Variable text_of_html : jsstring -> jsstring.

Definition set_innerHTML (output : jsstring) (h : Host) : Host :=
  with_dom (rendered text_of_html output) h.

(** [Math.floor(Math.random() * n)] at draw [k].  The product is exact
    here.  In doubles it is rounded, which can move it across an integer
    but, for the two factors the module uses (40 and 18), never up to the
    factor itself: the largest draw is [1 - 2^-53], and [40 - 5 * 2^-50]
    and [18 - 9 * 2^-52] both round below 40 and 18. *)
Definition random_below (n : Z) (k : nat) : Z :=
  Math_floor (random k * inject_Z n).

(** The loop of [setText]: positions [i], [i+1], ... ([n] of them), each
    pushing one task and making two draws. *)
Fixpoint setText_loop (oldText newText : jsstring) (n : nat) (i : Z)
         (q : list Task) (k : nat) : list Task * nat :=
  match n with
  | O => (q, k)
  | S n' =>
      let from := or_empty (js_index oldText i) in
      let to := or_empty (js_index newText i) in
      let start := random_below 40 k in
      let end_ := start + random_below 40 (S k) in
      setText_loop oldText newText n' (i + 1)
        (q ++ [{| from := from; to := to; start := start; end_ := end_;
                  char := None |}])
        (S (S k))
  end.

(** The body of the loop of [update] for one task at frame [fr]: the piece
    appended to [output], whether the task counts as complete, the task
    with its [char] as the body leaves it, and the draws made. *)
Definition update_task (glyph_set : jsstring) (fr : Z) (t : Task) (k : nat)
  : jsstring * bool * Task * nat :=
  if end_ t <=? fr then (to t, true, t, k)
  else if start t <=? fr then
    if js_not (char t) then
      let c := js_index glyph_set (random_below (js_length glyph_set) k) in
      (span_open ++ template_text c ++ span_close, false, with_char c t, S k)
    else if Qlt_bool (random k) refresh_threshold then
      let c :=
        js_index glyph_set (random_below (js_length glyph_set) (S k)) in
      (span_open ++ template_text c ++ span_close, false, with_char c t,
       S (S k))
    else
      (span_open ++ template_text (char t) ++ span_close, false, t, S k)
  else (from t, false, t, k).

Fixpoint update_loop (glyph_set : jsstring) (fr : Z) (q : list Task)
         (k : nat) (output : jsstring) (complete : Z)
  : jsstring * Z * list Task * nat :=
  match q with
  | [] => (output, complete, [], k)
  | t :: rest =>
      let '(piece, done, t', k') := update_task glyph_set fr t k in
      let '(output', complete', rest', k'') :=
        update_loop glyph_set fr rest k' (output ++ piece)
          (if done then complete + 1 else complete) in
      (output', complete', t' :: rest', k'')
  end.

Definition update (t : TextScramble) (h : Host)
  : Completion (TextScramble * Host) :=
  let '(output, complete, q, k) :=
    update_loop (chars t) (frame t) (queue t) (drawn h) [] 0 in
  let t1 := with_queue q t in
  let h1 := set_innerHTML output (with_drawn k h) in
  if complete =? js_length (queue t1) then
    match resolve t1 with
    | None => Throw TypeError
    | Some p => Normal (t1, resolve_promise p h1)
    end
  else
    let '(handle, h2) := requestAnimationFrame h1 in
    Normal (with_frame (frame t1 + 1) (with_frameRequest (Some handle) t1),
            h2).

(** [setText(newText)]; [None] is [undefined], whose [length] cannot be
    read.  The result is the promise returned to the caller. *)
Definition setText (newText : option jsstring) (t : TextScramble) (h : Host)
  : Completion (nat * TextScramble * Host) :=
  let oldText := textContent (dom h) in
  match newText with
  | None => Throw TypeError
  | Some newText =>
      let length := Z.max (js_length oldText) (js_length newText) in
      let '(promise, h1) := new_Promise h in
      let t1 := with_resolve (Some promise) t in
      let '(q, k) :=
        setText_loop oldText newText (Z.to_nat length) 0 [] (drawn h1) in
      let t2 := with_queue q t1 in
      let h2 := cancelAnimationFrame (frameRequest t2) (with_drawn k h1) in
      let t3 := with_frame 0 t2 in
      do (t4, h3) <- update t3 h2;
      Normal (promise, t4, h3)
  end.

(** One display refresh: the callbacks pending when it begins run in
    registration order, each removed from the list before it is invoked;
    one cancelled meanwhile is skipped. *)
Fixpoint run_callbacks (handles : list nat) (t : TextScramble) (h : Host)
  : Completion (TextScramble * Host) :=
  match handles with
  | [] => Normal (t, h)
  | x :: rest =>
      if existsb (Nat.eqb x) (rafCallbacks h) then
        do (t', h') <- update t (cancelAnimationFrame (Some x) h);
        run_callbacks rest t' h'
      else run_callbacks rest t h
  end.

Definition animation_frame (t : TextScramble) (h : Host)
  : Completion (TextScramble * Host) :=
  run_callbacks (rafCallbacks h) t h.

Fixpoint run_frames (n : nat) (t : TextScramble) (h : Host)
  : Completion (TextScramble * Host) :=
  match n with
  | O => Normal (t, h)
  | S n' =>
      do (t', h') <- animation_frame t h;
      run_frames n' t' h'
  end.

(** What a client of the scrambler and the browser can do. *)
Inductive Event : Type :=
| CallSetText (newText : jsstring)
| Refresh.

Definition step (e : Event) (t : TextScramble) (h : Host)
  : Completion (TextScramble * Host) :=
  match e with
  | CallSetText s =>
      do (_, t', h') <- setText (Some s) t h;
      Normal (t', h')
  | Refresh => animation_frame t h
  end.

Fixpoint exec (es : list Event) (t : TextScramble) (h : Host)
  : Completion (TextScramble * Host) :=
  match es with
  | [] => Normal (t, h)
  | e :: rest =>
      do (t', h') <- step e t h;
      exec rest t' h'
  end.

(** *** The rotation cycle *)

(** The first statement of [next]: the call of [setText] and the
    registration of the continuation on the promise it returns. *)
Definition next_transition (r : WordRotator) (h : Host)
  : Completion (nat * WordRotator * Host) :=
  do (p, t, h1) <-
    setText (js_array_index (words r) (currentIndex r)) (scrambler r) h;
  Normal (p, with_scrambler t r, promise_then p ScheduleNext h1).

(** [next()]: the transition, then the index advances.  ([%] is reached
    with a non-empty list only: with an empty one [setText] has thrown.) *)
Definition next (r : WordRotator) (h : Host)
  : Completion (WordRotator * Host) :=
  do (_, r1, h1) <- next_transition r h;
  Normal
    (with_currentIndex
       (Z.rem (currentIndex r1 + 1) (js_length (words r1))) r1,
     h1).

(** [start()]; the name [start] is the task field. *)
Definition WordRotator_start (r : WordRotator) (h : Host) := next r h.

(** [new WordRotator(element, words, options)]: the fields, then
    [this.start()]. *)
Definition new_WordRotator (ws : list jsstring) (o : Options) (h : Host)
  : Completion (WordRotator * Host) :=
  WordRotator_start (initial_rotator ws o) h.

Definition stop (r : WordRotator) (h : Host) : WordRotator * Host :=
  (r, clearTimeout (timeoutId r) h).

(** The continuation of [next]:
    [this.timeoutId = setTimeout(() => this.next(), this.options.interval)]. *)
Definition run_job (j : Job) (r : WordRotator) (h : Host)
  : WordRotator * Host :=
  match j with
  | ScheduleNext =>
      let '(id, h') := setTimeout (interval r) h in
      (with_timeoutId (Some id) r, h')
  end.

Fixpoint run_jobs (js : list Job) (r : WordRotator) (h : Host)
  : WordRotator * Host :=
  match js with
  | [] => (r, h)
  | j :: rest => let '(r', h') := run_job j r h in run_jobs rest r' h'
  end.

(** The microtask checkpoint at the end of a script or callback.  No job
    of this module queues a further microtask. *)
Definition checkpoint (r : WordRotator) (h : Host) : WordRotator * Host :=
  run_jobs (microtasks h) r (with_microtasks [] h).

(** What the browser and a client of the rotator can do.  [Tick] is a
    display refresh, [Timeout id] the expiry of timer [id]; each ends with
    the microtask checkpoint (the jobs touch neither the scrambler nor the
    frame callbacks, so a checkpoint per callback gives the same state). *)
Inductive RotEvent : Type :=
| Tick
| Timeout (id : nat)
| CallStop.

Definition rot_step (e : RotEvent) (r : WordRotator) (h : Host)
  : Completion (WordRotator * Host) :=
  match e with
  | Tick =>
      do (t, h') <- animation_frame (scrambler r) h;
      Normal (checkpoint (with_scrambler t r) h')
  | Timeout id =>
      if existsb (fun x => Nat.eqb (fst x) id) (timers h) then
        do (r', h') <- next r (clearTimeout (Some id) h);
        Normal (checkpoint r' h')
      else Normal (r, h)
  | CallStop => let '(r', h') := stop r h in Normal (checkpoint r' h')
  end.

Fixpoint rot_exec (es : list RotEvent) (r : WordRotator) (h : Host)
  : Completion (WordRotator * Host) :=
  match es with
  | [] => Normal (r, h)
  | e :: rest =>
      do (r', h') <- rot_step e r h;
      rot_exec rest r' h'
  end.

(** A script that constructs a rotator on a fresh page, up to the end of
    its microtask checkpoint, and the events that follow. *)
Definition boot (ws : list jsstring) (o : Options) (e : Element)
  : Completion (WordRotator * Host) :=
  do (r, h) <- new_WordRotator ws o (fresh_host e);
  Normal (checkpoint r h).

Definition rotation (ws : list jsstring) (o : Options) (e : Element)
           (es : list RotEvent) : Completion (WordRotator * Host) :=
  do (r, h) <- boot ws o e;
  rot_exec es r h.

(** *** initKineticText, the word-rotation branch for one element *)

(** [parseInt(x, 10)]; [None] is [NaN]. *)
Variable parseInt : option jsstring -> option Z.

(** [el.dataset.words?.split(',').map((w) => w.trim()) || []]: an array is
    truthy, so the default applies to an absent attribute only. *)
Definition dataset_words (d : Dataset) : list jsstring :=
  match data_words d with
  | Some s => map trim (split comma s)
  | None => []
  end.

(** [parseInt(el.dataset.interval, 10) || 3000]. *)
Definition dataset_interval (d : Dataset) : Z :=
  match parseInt (data_interval d) with
  | Some 0 | None => 3000
  | Some i => i
  end.

Definition initKineticText (d : Dataset) (h : Host)
  : Completion (option WordRotator * Host) :=
  let ws := dataset_words d in
  if 0 <? js_length ws then
    do (r, h') <-
      new_WordRotator ws {| opt_interval := Some (dataset_interval d) |} h;
    Normal (Some r, h')
  else Normal (None, h).

End Engine.

(** ** Derived notions used in the statements *)

(** Two tasks with the same plan: everything but the scrambled glyph. *)
Definition same_plan (a b : Task) : Prop :=
  from a = from b /\ to a = to b /\ start a = start b /\ end_ a = end_ b.

(** The first frame at which every task of a queue is complete. *)
Definition session_end (q : list Task) : Z :=
  fold_right (fun t m => Z.max (end_ t) m) 0 q.

Definition all_complete (fr : Z) (q : list Task) : Prop :=
  Forall (fun t => end_ t <= fr) q.

(** The state and the number of resolve calls of promise [p]. *)
Definition promise_status (p : nat) (h : Host) : option (PromiseState * nat) :=
  match nth_error (promises h) p with
  | Some pr => Some (pstate pr, resolveCalls pr)
  | None => None
  end.

(** The task [setText] plans for position [i] when its first draw is the
    [k]-th. *)
Definition planned_task (random : nat -> Q) (oldText newText : jsstring)
           (i : Z) (k : nat) : Task :=
  {| from := or_empty (js_index oldText i);
     to := or_empty (js_index newText i);
     start := random_below random 40 k;
     end_ := random_below random 40 k + random_below random 40 (S k);
     char := None |}.

(** No resolve function has been called twice. *)
Definition calls_ok (h : Host) : Prop :=
  Forall (fun pr => (resolveCalls pr <= 1)%nat) (promises h).

(** The scheduling invariant of a scrambler: at most one frame callback is
    pending; it is the one [frameRequest] names, the promise of the current
    session is then unresolved and the element shows what the last update
    rendered.  No resolve function is ever called twice. *)
Definition sched_ok (text_of_html : jsstring -> jsstring)
           (t : TextScramble) (h : Host) : Prop :=
  match rafCallbacks h with
  | [] => True
  | x :: rest =>
      rest = [] /\ frameRequest t = Some x /\ (x <= rafCounter h)%nat /\
      textContent (dom h) = text_of_html (innerHTML (dom h)) /\
      exists p, resolve t = Some p /\
                promise_status p h = Some (Pending, 0%nat)
  end /\
  calls_ok h.

(** The queue [setText] builds from the shown text and the new text when its
    first draw is the [k]-th, and the state in which it then calls
    [update]. *)
Definition session_length (oldText newText : jsstring) : nat :=
  Z.to_nat (Z.max (js_length oldText) (js_length newText)).

Definition session_queue (random : nat -> Q) (oldText newText : jsstring)
           (k : nat) : list Task :=
  map (fun j => planned_task random oldText newText (Z.of_nat j)
                  (k + 2 * j)%nat)
      (seq 0 (session_length oldText newText)).

Definition prepared_scrambler (random : nat -> Q) (newText : jsstring)
           (t : TextScramble) (h : Host) : TextScramble :=
  with_frame 0
    (with_queue (session_queue random (textContent (dom h)) newText (drawn h))
       (with_resolve (Some (length (promises h))) t)).

Definition prepared_host (newText : jsstring) (t : TextScramble) (h : Host)
  : Host :=
  cancelAnimationFrame (frameRequest t)
    (with_drawn
       (drawn h + 2 * session_length (textContent (dom h)) newText)%nat
       (snd (new_Promise h))).

(** The current resolve function belongs to a promise of the table. *)
Definition resolve_ok (t : TextScramble) (h : Host) : Prop :=
  forall r, resolve t = Some r -> (r < length (promises h))%nat.





(** The invariant of a rotation cycle. *)
Definition rot_ok (text_of_html : jsstring -> jsstring) (r : WordRotator)
           (h : Host) : Prop :=
  sched_ok text_of_html (scrambler r) h /\
  0 <= currentIndex r < js_length (words r).

(** The continuation of a transition has not run yet: it waits on the
    pending promise [p] or in the microtask queue. *)
Definition continuation_waiting (p : nat) (h : Host) : Prop :=
  In ScheduleNext (microtasks h) \/
  exists pr, nth_error (promises h) p = Some pr /\ pstate pr = Pending /\
             In ScheduleNext (reactions pr).

(** Closed instances of the host parameters, for evaluating the model. *)
Definition sample_random (k : nat) : Q := 1 # 2.
Definition zero_random (k : nat) : Q := 0.

(** Drops the tags of a markup string and keeps the text between them. *)
Fixpoint sample_text (in_tag : bool) (s : jsstring) : jsstring :=
  match s with
  | [] => []
  | c :: r =>
      if in_tag then sample_text (negb (N.eqb c 62)) r
      else if N.eqb c 60 then sample_text true r
      else c :: sample_text false r
  end.

Definition sample_text_of_html (s : jsstring) : jsstring := sample_text false s.

Definition sample_element : Element :=
  {| innerHTML := [65; 66]%N; textContent := [65; 66]%N |}.

Definition empty_element : Element := {| innerHTML := []; textContent := [] |}.

(** A scrambler on the element showing [AB], one refresh into the
    transition to [X]; the same after forty refreshes, when the transition is
    over; the first task of each queue. *)
Definition sample_events : list Event := [CallSetText [88%N]; Refresh].

Definition sample_state : TextScramble * Host :=
  Eval vm_compute in
    match exec sample_random sample_text_of_html sample_events
                new_TextScramble (fresh_host sample_element) with
    | Normal s => s
    | Throw _ => (new_TextScramble, fresh_host sample_element)
    end.





(** A rotator over [A], [B] on an empty element, one refresh after its
    construction. *)
Definition sample_words : list jsstring := [[65%N]; [66%N]].
Definition no_options : Options := {| opt_interval := None |}.

Definition sample_rotation : WordRotator * Host :=
  Eval vm_compute in
    match rotation sample_random sample_text_of_html sample_words no_options
                   empty_element [Tick] with
    | Normal s => s
    | Throw _ => (initial_rotator sample_words no_options,
                  fresh_host empty_element)
    end.

Definition no_dataset : Dataset :=
  {| data_words := None; data_interval := None |}.

Definition sample_parseInt (v : option jsstring) : option Z := None.

(** ** splitText *)

(** [a === b] on strings. *)
Definition jsstring_eqb (a b : jsstring) : bool :=
  if list_eq_dec N.eq_dec a b then true else false.

(** The strings ['chars'], ['words'], ['char'], ['word'], ['--char-index'],
    ['--word-index'] and ['true']; the space and the no-break space. *)
Definition str_chars : jsstring := [99; 104; 97; 114; 115]%N.
Definition str_words : jsstring := [119; 111; 114; 100; 115]%N.
Definition str_char : jsstring := [99; 104; 97; 114]%N.
Definition str_word : jsstring := [119; 111; 114; 100]%N.
Definition str_char_index : jsstring :=
  [45; 45; 99; 104; 97; 114; 45; 105; 110; 100; 101; 120]%N.
Definition str_word_index : jsstring :=
  [45; 45; 119; 111; 114; 100; 45; 105; 110; 100; 101; 120]%N.
Definition str_true : jsstring := [116; 114; 117; 101]%N.
Definition space : jschar := 32%N.
Definition nbsp : jschar := 160%N.

(** A span as [splitText] creates it: its class, the custom property set on
    its style with the index as value, its text and its [aria-hidden]
    attribute. *)
Record Span : Type := {
  className : jsstring;
  customProperty : jsstring * Z;
  spanText : jsstring;
  ariaHidden : jsstring
}.

Inductive Node : Type :=
| SpanNode (s : Span)
| TextNode (data : jsstring).

(** The element [splitText] works on: its children and its [aria-label]
    attribute ([None] when absent). *)
Record SplitElement : Type := {
  childNodes : list Node;
  ariaLabel : option jsstring
}.

Definition node_text (n : Node) : jsstring :=
  match n with
  | SpanNode s => spanText s
  | TextNode data => data
  end.

(** [element.textContent]: the text of the children, in order. *)
Definition element_text (element : SplitElement) : jsstring :=
  concat (map node_text (childNodes element)).

(** [chars.forEach((char, i) => ...)] from index [i] on: the spans
    appended. *)
Fixpoint char_spans (chars : list jsstring) (i : Z) : list Node :=
  match chars with
  | [] => []
  | char :: rest =>
      SpanNode {| className := str_char;
                  customProperty := (str_char_index, i);
                  spanText := if jsstring_eqb char [space] then [nbsp]
                              else char;
                  ariaHidden := str_true |}
      :: char_spans rest (i + 1)
  end.

(** [words.forEach((word, i) => ...)] from index [i] on, [n] being
    [words.length]: the spans and the text nodes appended. *)
Fixpoint word_spans (ws : list jsstring) (i n : Z) : list Node :=
  match ws with
  | [] => []
  | word :: rest =>
      SpanNode {| className := str_word;
                  customProperty := (str_word_index, i);
                  spanText := word;
                  ariaHidden := str_true |}
      :: (if i <? n - 1 then [TextNode [space]] else [])
      ++ word_spans rest (i + 1) n
  end.

(** [splitText(element, type)]; [None] is an omitted [type], which defaults
    to ['chars'].  The result is the element as the call leaves it. *)
Definition splitText (element : SplitElement) (type : option jsstring)
  : SplitElement :=
  let type := match type with Some t => t | None => str_chars end in
  let text := trim (element_text element) in
  let children := [] in
  let children :=
    if jsstring_eqb type str_chars then
      children ++ char_spans (map (fun c => [c]) text) 0
    else children in
  let children :=
    if jsstring_eqb type str_words then
      let ws := split space text in
      children ++ word_spans ws 0 (js_length ws)
    else children in
  {| childNodes := children; ariaLabel := Some text |}.

(** The unit a character span shows for a unit of the text. *)
Definition shown_unit (c : jschar) : jschar :=
  if N.eqb c space then nbsp else c.

(** The pieces joined again, the separator between them. *)
Fixpoint join (sep : jschar) (l : list jsstring) : jsstring :=
  match l with
  | [] => []
  | w :: rest =>
      match rest with
      | [] => w
      | _ :: _ => w ++ sep :: join sep rest
      end
  end.

Definition is_span (n : Node) : bool :=
  match n with SpanNode _ => true | TextNode _ => false end.

(** ** Typewriter *)

(** The [options] argument of the constructor; [None] for an absent key. *)
Record TypewriterOptions : Type := {
  speed_option : option Z;
  delay_option : option Z;
  cursor_option : option bool
}.

(** [text] is [this.text]; [speed], [delay] and [cursor] are the fields of
    [this.options]; [this.el] refers to the page's element. *)
Record Typewriter : Type := {
  text : jsstring;
  speed : Z;
  delay : Z;
  cursor : bool
}.

(** The page a typewriter works on: the text of its element and whether the
    element has the class [typewriter-cursor]; the promises made by [type];
    the pending timeouts, each with its delay and the promise its callback
    will resolve; the running intervals, each with its period, the counter
    [i] of its callback and that promise; the last timer id handed out. *)
Record TypingPage : Type := {
  shown : jsstring;
  cursorClass : bool;
  typingPromises : list Promise;
  pendingTimeouts : list (nat * Z * nat);
  activeIntervals : list (nat * Z * Z * nat);
  lastTimerId : nat
}.

(** [new Typewriter(element, options)]. *)
Definition new_Typewriter (o : TypewriterOptions) (page : TypingPage)
  : Typewriter * TypingPage :=
  let w :=
    {| text := shown page;
       speed := match speed_option o with Some v => v | None => 50 end;
       delay := match delay_option o with Some v => v | None => 0 end;
       cursor := match cursor_option o with Some v => v | None => true end |}
  in
  (w,
   {| shown := [];
      cursorClass := if cursor w then true else cursorClass page;
      typingPromises := typingPromises page;
      pendingTimeouts := pendingTimeouts page;
      activeIntervals := activeIntervals page;
      lastTimerId := lastTimerId page |}).

(** [type()]: a new promise and the timeout that will start the typing. *)
Definition type (w : Typewriter) (page : TypingPage) : nat * TypingPage :=
  let p := length (typingPromises page) in
  let id := S (lastTimerId page) in
  (p,
   {| shown := shown page;
      cursorClass := cursorClass page;
      typingPromises :=
        typingPromises page
        ++ [{| pstate := Pending; reactions := []; resolveCalls := 0 |}];
      pendingTimeouts := pendingTimeouts page ++ [(id, delay w, p)];
      activeIntervals := activeIntervals page;
      lastTimerId := id |}).

(** [s.charAt(i)]. *)
Definition charAt (s : jsstring) (i : Z) : jsstring :=
  or_empty (js_index s i).

(** The callback of the timeout: [let i = 0] and [setInterval]. *)
Definition start_interval (w : Typewriter) (p : nat) (page : TypingPage)
  : TypingPage :=
  let id := S (lastTimerId page) in
  {| shown := shown page;
     cursorClass := cursorClass page;
     typingPromises := typingPromises page;
     pendingTimeouts := pendingTimeouts page;
     activeIntervals := activeIntervals page ++ [(id, speed w, 0, p)];
     lastTimerId := id |}.

(** Calling the resolve function of promise [p]. *)
Definition resolve_typing (p : nat) (ps : list Promise) : list Promise :=
  match nth_error ps p with
  | Some pr =>
      list_set p {| pstate := Fulfilled; reactions := reactions pr;
                    resolveCalls := S (resolveCalls pr) |} ps
  | None => ps
  end.

(** The callback of interval [id], whose counter is [i] and whose promise
    is [p]. *)
Definition interval_tick (w : Typewriter) (id : nat) (i : Z) (p : nat)
           (page : TypingPage) : TypingPage :=
  if i <? js_length (text w) then
    {| shown := shown page ++ charAt (text w) i;
       cursorClass := cursorClass page;
       typingPromises := typingPromises page;
       pendingTimeouts := pendingTimeouts page;
       activeIntervals :=
         map (fun x => if Nat.eqb (fst (fst (fst x))) id
                       then (id, snd (fst (fst x)), i + 1, p) else x)
             (activeIntervals page);
       lastTimerId := lastTimerId page |}
  else
    {| shown := shown page;
       cursorClass := cursorClass page;
       typingPromises := resolve_typing p (typingPromises page);
       pendingTimeouts := pendingTimeouts page;
       activeIntervals :=
         filter (fun x => negb (Nat.eqb (fst (fst (fst x))) id))
                (activeIntervals page);
       lastTimerId := lastTimerId page |}.

(** What the browser does: a timeout expires, an interval fires. *)
Inductive TypingEvent : Type :=
| DelayElapsed (id : nat)
| IntervalTick (id : nat).

Definition typing_step (w : Typewriter) (ev : TypingEvent)
           (page : TypingPage) : TypingPage :=
  match ev with
  | DelayElapsed id =>
      match find (fun x => Nat.eqb (fst (fst x)) id) (pendingTimeouts page)
      with
      | Some (_, _, p) =>
          start_interval w p
            {| shown := shown page;
               cursorClass := cursorClass page;
               typingPromises := typingPromises page;
               pendingTimeouts :=
                 filter (fun x => negb (Nat.eqb (fst (fst x)) id))
                        (pendingTimeouts page);
               activeIntervals := activeIntervals page;
               lastTimerId := lastTimerId page |}
      | None => page
      end
  | IntervalTick id =>
      match find (fun x => Nat.eqb (fst (fst (fst x))) id)
                 (activeIntervals page)
      with
      | Some (_, _, i, p) => interval_tick w id i p page
      | None => page
      end
  end.

Fixpoint typing_exec (w : Typewriter) (es : list TypingEvent)
         (page : TypingPage) : TypingPage :=
  match es with
  | [] => page
  | ev :: rest => typing_exec w rest (typing_step w ev page)
  end.

Definition typing_status (p : nat) (page : TypingPage)
  : option (PromiseState * nat) :=
  match nth_error (typingPromises page) p with
  | Some pr => Some (pstate pr, resolveCalls pr)
  | None => None
  end.

(** The three phases of one [type()] call on the text [T] with promise [p]:
    waiting for the delay, typing with [i] units shown, finished. *)
Definition typing_phase (T : jsstring) (p : nat) (page : TypingPage) : Prop :=
  (shown page = [] /\ activeIntervals page = [] /\
   (exists id d, pendingTimeouts page = [(id, d, p)]) /\
   typing_status p page = Some (Pending, 0%nat))
  \/
  (pendingTimeouts page = [] /\
   (exists id sp i,
       activeIntervals page = [(id, sp, Z.of_nat i, p)] /\
       (i <= length T)%nat /\ shown page = firstn i T) /\
   typing_status p page = Some (Pending, 0%nat))
  \/
  (shown page = T /\ pendingTimeouts page = [] /\
   activeIntervals page = [] /\
   typing_status p page = Some (Fulfilled, 1%nat)).

(** ** Mobile navigation (main.js) *)

(** What [initMobileNav] reads and writes: whether the toggle has the class
    [is-active], its [aria-expanded] attribute ([None] when absent),
    whether the menu has the class [is-open] and whether the body has the
    class [menu-open]. *)
Record NavPage : Type := {
  toggleActive : bool;
  ariaExpanded : option jsstring;
  menuOpen : bool;
  bodyMenuOpen : bool
}.

Definition str_false : jsstring := [102; 97; 108; 115; 101]%N.
Definition str_Escape : jsstring := [69; 115; 99; 97; 112; 101]%N.

Definition openMenu (page : NavPage) : NavPage :=
  {| toggleActive := true; ariaExpanded := Some str_true;
     menuOpen := true; bodyMenuOpen := true |}.

Definition closeMenu (page : NavPage) : NavPage :=
  {| toggleActive := false; ariaExpanded := Some str_false;
     menuOpen := false; bodyMenuOpen := false |}.

(** The events the listeners of [initMobileNav] react to: a click on the
    toggle, a click on a link of the menu, a key pressed, the window
    resized to a width. *)
Inductive NavEvent : Type :=
| ToggleClick
| LinkClick
| Keydown (key : jsstring)
| Resize (innerWidth : Z).

(** The listeners, as [initMobileNav] binds them; [toggle] and [mobileMenu]
    tell whether the two elements were found. *)
Definition nav_step (toggle mobileMenu : bool) (ev : NavEvent)
           (page : NavPage) : NavPage :=
  if negb toggle || negb mobileMenu then page
  else
    match ev with
    | ToggleClick =>
        let isOpen := menuOpen page in
        if isOpen then closeMenu page else openMenu page
    | LinkClick => closeMenu page
    | Keydown key =>
        if jsstring_eqb key str_Escape && menuOpen page then closeMenu page
        else page
    | Resize innerWidth =>
        if (768 <? innerWidth) && menuOpen page then closeMenu page
        else page
    end.

Fixpoint nav_exec (toggle mobileMenu : bool) (es : list NavEvent)
         (page : NavPage) : NavPage :=
  match es with
  | [] => page
  | ev :: rest => nav_exec toggle mobileMenu rest
                    (nav_step toggle mobileMenu ev page)
  end.

(** The four flags tell the same story. *)
Definition nav_in_sync (page : NavPage) : Prop :=
  toggleActive page = menuOpen page /\
  bodyMenuOpen page = menuOpen page /\
  ariaExpanded page = Some (if menuOpen page then str_true else str_false).

(** ** Notions for the rotation cycle as a whole *)

(** The word a rotator over [ws] targets in its [n]-th transition, counted
    from 1. *)
Definition nth_word (ws : list jsstring) (n : nat) : option jsstring :=
  js_array_index ws (Z.of_nat (n - 1) mod js_length ws).

(** Something of the cycle is scheduled: a frame callback or a timeout. *)
Definition alive (h : Host) : Prop :=
  rafCallbacks h <> [] \/ timers h <> [].

(** The state of a rotation between two events.  Every transition made one
    promise, so their number counts the transitions started.  The microtask
    queue is empty; the scrambler works on the word of the latest
    transition.  While a frame callback is pending no timeout is, and the
    continuation waits on the promise; otherwise the element holds the
    finished word and at most one timeout is pending, the one [timeoutId]
    names, set for the rotator's interval. *)
Definition cycle_ok (text_of_html : jsstring -> jsstring) (r : WordRotator)
           (h : Host) : Prop :=
  let n := length (promises h) in
  let target := concat (map to (queue (scrambler r))) in
  sched_ok text_of_html (scrambler r) h /\
  microtasks h = [] /\
  (1 <= n)%nat /\
  resolve (scrambler r) = Some (n - 1)%nat /\
  0 < js_length (words r) /\
  currentIndex r = Z.of_nat n mod js_length (words r) /\
  nth_word (words r) n = Some target /\
  match rafCallbacks h with
  | [] =>
      dom h = rendered text_of_html target /\
      promise_status (n - 1) h = Some (Fulfilled, 1%nat) /\
      (timers h = [] \/
       exists id, timers h = [(id, interval r)] /\ timeoutId r = Some id)
  | _ :: _ =>
      timers h = [] /\
      exists pr, nth_error (promises h) (n - 1) = Some pr /\
                 reactions pr = [ScheduleNext]
  end.

(** ** Further closed instances *)

(** The sample rotation forty refreshes after its construction: the first
    word is complete and the timeout for the next one is pending. *)
Definition sample_delay : WordRotator * Host :=
  Eval vm_compute in
    match rotation sample_random sample_text_of_html sample_words no_options
                   empty_element (repeat Tick 40) with
    | Normal s => s
    | Throw _ => (initial_rotator sample_words no_options,
                  fresh_host empty_element)
    end.

(** The attribute [data-words="A, B"]. *)
Definition sample_dataset : Dataset :=
  {| data_words := Some [65; 44; 32; 66]%N; data_interval := None |}.

(** An element holding the text [" a b "], and the string ['lines']. *)
Definition sample_split_element : SplitElement :=
  {| childNodes := [TextNode [32; 97; 32; 98; 32]%N]; ariaLabel := None |}.
Definition str_lines : jsstring := [108; 105; 110; 101; 115]%N.

(** A page whose element shows [AB], with no timer and no promise yet. *)
Definition sample_typing_page : TypingPage :=
  {| shown := [65; 66]%N; cursorClass := false; typingPromises := [];
     pendingTimeouts := []; activeIntervals := []; lastTimerId := 0 |}.
Definition default_typing : TypewriterOptions :=
  {| speed_option := None; delay_option := None; cursor_option := None |}.

(** A page loaded with the menu marked open on the toggle only. *)
Definition sample_nav_page : NavPage :=
  {| toggleActive := true; ariaExpanded := None; menuOpen := false;
     bodyMenuOpen := false |}.

(** * Properties *)

(** Splits on every condition the goal branches on. *)
Ltac case_ifs :=
  repeat match goal with
         | |- context [if ?b then _ else _] => destruct b
         end.

Section Facts.

Variable rnd : nat -> Q.
Variable txt : jsstring -> jsstring.

(** [Math.random] returns a number in [[0, 1)]. *)
Hypothesis rnd_unit : forall k, (0 <= rnd k)%Q /\ (rnd k < 1)%Q.


(** *** The loop of [setText] *)

Lemma setText_loop_spec (oldText newText : jsstring) (n : nat) :
  forall (i : Z) (q : list Task) (k : nat),
    setText_loop rnd oldText newText n i q k =
    (q ++ map (fun j => planned_task rnd oldText newText
                          (i + Z.of_nat j) (k + 2 * j)%nat) (seq 0 n),
     (k + 2 * n)%nat).
Proof.
  induction n as [|n IH]; intros i q k.
  - simpl. rewrite app_nil_r. f_equal. lia.
  - cbn [setText_loop]. rewrite IH. rewrite <- app_assoc. f_equal.
    + f_equal. cbn [seq map app]. f_equal.
      * unfold planned_task. rewrite Z.add_0_r.
        replace (k + 2 * 0)%nat with k by lia. reflexivity.
      * rewrite <- seq_shift, map_map. apply map_ext. intros j.
        f_equal; lia.
    + lia.
Qed.

Lemma or_empty_index (s : jsstring) (i : nat) :
  or_empty (js_index s (Z.of_nat i)) =
  match nth_error s i with Some c => [c] | None => [] end.
Proof.
  unfold js_index. destruct (Z.ltb_spec (Z.of_nat i) 0) as [H|_]; [lia|].
  rewrite Nat2Z.id. destruct (nth_error s i); reflexivity.
Qed.

(** Reading a string unit by unit up to any bound past its end gives the
    string back. *)
Lemma concat_units (s : jsstring) (n : nat) :
  (length s <= n)%nat ->
  concat (map (fun j => or_empty (js_index s (Z.of_nat j))) (seq 0 n)) = s.
Proof.
  revert n. induction s as [|c s IH]; intros n Hn.
  - clear Hn. induction n as [|n IHn]; [reflexivity|].
    rewrite seq_S, map_app, concat_app, IHn. cbn.
    rewrite or_empty_index. destruct n; reflexivity.
  - destruct n as [|n]; [simpl in Hn; lia|].
    cbn [seq map concat]. rewrite or_empty_index. cbn [nth_error app].
    f_equal. rewrite <- seq_shift, map_map.
    etransitivity; [| apply (IH n); simpl in Hn; lia].
    f_equal. apply map_ext. intros j. rewrite !or_empty_index. reflexivity.
Qed.

(** *** The body and the loop of [update] *)

Lemma update_task_plan (g : jsstring) (fr : Z) (t : Task) (k : nat) :
  same_plan t (snd (fst (update_task rnd g fr t k))).
Proof.
  unfold update_task, same_plan.
  case_ifs; cbn; auto.
Qed.

Lemma update_task_done (g : jsstring) (fr : Z) (t : Task) (k : nat) :
  end_ t <= fr ->
  update_task rnd g fr t k = (to t, true, t, k).
Proof.
  intros H. unfold update_task.
  destruct (Z.leb_spec (end_ t) fr); [reflexivity | lia].
Qed.

Lemma update_task_not_done (g : jsstring) (fr : Z) (t : Task) (k : nat) :
  fr < end_ t ->
  snd (fst (fst (update_task rnd g fr t k))) = false.
Proof.
  intros H. unfold update_task.
  destruct (Z.leb_spec (end_ t) fr); [lia|].
  case_ifs; reflexivity.
Qed.

Lemma same_plan_refl (t : Task) : same_plan t t.
Proof. unfold same_plan; auto. Qed.

Lemma same_plan_trans (a b c : Task) :
  same_plan a b -> same_plan b c -> same_plan a c.
Proof. unfold same_plan; intuition congruence. Qed.

Lemma same_plan_all_complete (fr : Z) (q q' : list Task) :
  Forall2 same_plan q q' -> all_complete fr q -> all_complete fr q'.
Proof.
  unfold all_complete. induction 1 as [|a b q q' Hab _ IH]; intros Hq.
  - constructor.
  - inversion Hq; subst. constructor; [|auto].
    destruct Hab as (_ & _ & _ & He). lia.
Qed.

Lemma same_plan_session_end (q q' : list Task) :
  Forall2 same_plan q q' -> session_end q' = session_end q.
Proof.
  induction 1 as [|a b q q' Hab _ IH]; [reflexivity|].
  unfold session_end in *. cbn [fold_right].
  destruct Hab as (_ & _ & _ & He). rewrite IH, He. reflexivity.
Qed.

Lemma Forall2_same_plan_refl (q : list Task) : Forall2 same_plan q q.
Proof. induction q; constructor; auto using same_plan_refl. Qed.

Lemma Forall2_same_plan_trans (a b c : list Task) :
  Forall2 same_plan a b -> Forall2 same_plan b c -> Forall2 same_plan a c.
Proof.
  intros Hab. revert c. induction Hab; intros c Hbc; inversion Hbc; subst;
    constructor; eauto using same_plan_trans.
Qed.

Lemma session_end_nonneg (q : list Task) : 0 <= session_end q.
Proof. unfold session_end. induction q; cbn [fold_right]; lia. Qed.

Lemma all_complete_session_end (fr : Z) (q : list Task) :
  0 <= fr -> (all_complete fr q <-> session_end q <= fr).
Proof.
  intros Hfr. unfold all_complete, session_end.
  induction q as [|t q IH]; cbn [fold_right].
  - split; [lia | constructor].
  - split.
    + intros H. inversion H; subst. apply IH in H3. lia.
    + intros H. constructor; [lia | apply IH; lia].
Qed.

(** What the loop computes: the queue keeps its plans, [complete] counts
    the tasks with [end <= frame], and it reaches the queue length exactly
    when every task is complete. *)
Lemma update_loop_spec (g : jsstring) (fr : Z) (q : list Task) :
  forall (k : nat) (output : jsstring) (complete : Z),
    let '(output', complete', q', k') :=
      update_loop rnd g fr q k output complete in
    Forall2 same_plan q q' /\
    complete <= complete' <= complete + js_length q /\
    (complete' = complete + js_length q <-> all_complete fr q) /\
    (all_complete fr q ->
     output' = output ++ concat (map to q) /\ q' = q /\ k' = k).
Proof.
  unfold all_complete, js_length.
  induction q as [|t q IH]; intros k output complete.
  - cbn. repeat split; try lia; auto. now rewrite app_nil_r.
  - cbn [update_loop].
    pose proof (update_task_plan g fr t k) as Hplan.
    destruct (Z.le_gt_cases (end_ t) fr) as [Hd|Hd].
    + rewrite (update_task_done g fr t k Hd) in *. cbn in Hplan.
      specialize (IH k (output ++ to t) (complete + 1)).
      destruct (update_loop rnd g fr q k (output ++ to t) (complete + 1))
        as [[[o c] q'] k'].
      destruct IH as (Hq & Hc & Hiff & Hall).
      cbn [length]. rewrite Nat2Z.inj_succ.
      split; [constructor; assumption|].
      split; [lia|]. split.
      * split.
        -- intros H. constructor; [assumption|]. apply Hiff. lia.
        -- intros H. inversion H; subst. apply Hiff in H3. lia.
      * intros H. inversion H; subst. destruct (Hall H3) as (Ho & Hq' & Hk).
        subst. cbn. rewrite <- app_assoc. auto.
    + pose proof (update_task_not_done g fr t k ltac:(lia)) as Hnd.
      destruct (update_task rnd g fr t k) as [[[piece done] t'] k1].
      cbn in Hnd, Hplan. subst done.
      specialize (IH k1 (output ++ piece) complete).
      destruct (update_loop rnd g fr q k1 (output ++ piece) complete)
        as [[[o c] q'] k'].
      destruct IH as (Hq & Hc & Hiff & Hall).
      cbn [length]. rewrite Nat2Z.inj_succ.
      split; [constructor; assumption|].
      split; [lia|]. split.
      * split.
        -- intros H. lia.
        -- intros H. inversion H; subst. lia.
      * intros H. inversion H; subst. lia.
Qed.

Lemma all_complete_dec (fr : Z) (q : list Task) :
  {all_complete fr q} + {~ all_complete fr q}.
Proof. apply Forall_dec. intros t. apply Z_le_dec. Qed.

(** *** Promise table *)

Lemma nth_error_list_set_eq {A : Type} (l : list A) (i : nat) (x : A) :
  (i < length l)%nat -> nth_error (list_set i x l) i = Some x.
Proof.
  revert i. induction l as [|y l IH]; intros [|i] H; cbn in *;
    try lia; auto. apply IH. lia.
Qed.

Lemma nth_error_list_set_neq {A : Type} (l : list A) (i j : nat) (x : A) :
  i <> j -> nth_error (list_set i x l) j = nth_error l j.
Proof.
  revert i j. induction l as [|y l IH]; intros [|i] [|j] H; cbn;
    try congruence; auto.
Qed.

Lemma length_list_set {A : Type} (l : list A) (i : nat) (x : A) :
  length (list_set i x l) = length l.
Proof.
  revert i. induction l as [|y l IH]; intros [|i]; cbn; auto.
Qed.

Lemma Forall_list_set {A : Type} (P : A -> Prop) (l : list A) (i : nat)
      (x : A) :
  P x -> Forall P l -> Forall P (list_set i x l).
Proof.
  intros Hx. revert i. induction l as [|y l IH]; intros [|i] H; cbn;
    inversion H; subst; constructor; auto.
Qed.

Lemma promise_status_lt (p : nat) (h : Host) (v : PromiseState * nat) :
  promise_status p h = Some v -> (p < length (promises h))%nat.
Proof.
  unfold promise_status. intros H. apply nth_error_Some.
  destruct (nth_error (promises h) p); congruence.
Qed.

Lemma new_Promise_status (h : Host) :
  promise_status (fst (new_Promise h)) (snd (new_Promise h)) =
  Some (Pending, 0%nat).
Proof.
  unfold promise_status, new_Promise. cbn.
  rewrite nth_error_app2 by lia. rewrite Nat.sub_diag. reflexivity.
Qed.

Lemma new_Promise_other (h : Host) (p : nat) :
  (p < length (promises h))%nat ->
  promise_status p (snd (new_Promise h)) = promise_status p h.
Proof.
  intros H. unfold promise_status, new_Promise. cbn.
  rewrite nth_error_app1 by lia. reflexivity.
Qed.

Lemma resolve_promise_status (p : nat) (h : Host) :
  promise_status p h = Some (Pending, 0%nat) ->
  promise_status p (resolve_promise p h) = Some (Fulfilled, 1%nat).
Proof.
  intros H. pose proof (promise_status_lt _ _ _ H) as Hlt.
  unfold promise_status, resolve_promise in *.
  destruct (nth_error (promises h) p) as [pr|] eqn:E; [|discriminate].
  injection H as Hs Hc. rewrite Hs. cbn.
  rewrite nth_error_list_set_eq by assumption. cbn. now rewrite Hc.
Qed.

Lemma resolve_promise_other (p q : nat) (h : Host) :
  p <> q -> promise_status q (resolve_promise p h) = promise_status q h.
Proof.
  intros H. unfold promise_status, resolve_promise.
  destruct (nth_error (promises h) p) as [pr|]; [|reflexivity].
  destruct (pstate pr); cbn; rewrite nth_error_list_set_neq by assumption;
    reflexivity.
Qed.

Lemma resolve_promise_calls (p : nat) (h : Host) :
  promise_status p h = Some (Pending, 0%nat) ->
  Forall (fun pr => (resolveCalls pr <= 1)%nat) (promises h) ->
  Forall (fun pr => (resolveCalls pr <= 1)%nat)
         (promises (resolve_promise p h)).
Proof.
  intros H Hall. unfold promise_status, resolve_promise in *.
  destruct (nth_error (promises h) p) as [pr|] eqn:E; [|discriminate].
  injection H as Hs Hc. rewrite Hs. cbn.
  apply Forall_list_set; [cbn; lia | assumption].
Qed.

Lemma resolve_promise_frame (p : nat) (h : Host) :
  rafCallbacks (resolve_promise p h) = rafCallbacks h /\
  dom (resolve_promise p h) = dom h /\
  timers (resolve_promise p h) = timers h /\
  length (promises (resolve_promise p h)) = length (promises h).
Proof.
  unfold resolve_promise.
  destruct (nth_error (promises h) p) as [pr|]; [|auto].
  destruct (pstate pr); cbn; rewrite length_list_set; auto.
Qed.

(** *** One call of [update] *)

Lemma with_queue_same (t : TextScramble) : with_queue (queue t) t = t.
Proof. destruct t; reflexivity. Qed.

Lemma with_drawn_same (h : Host) : with_drawn (drawn h) h = h.
Proof. destruct h; reflexivity. Qed.

(** Every task complete: the text is rendered, the promise resolved and no
    frame requested. *)
Lemma update_complete (t : TextScramble) (h : Host) (p : nat) :
  all_complete (frame t) (queue t) ->
  resolve t = Some p ->
  update rnd txt t h =
  Normal (t, resolve_promise p
               (set_innerHTML txt (concat (map to (queue t))) h)).
Proof.
  intros Hall Hp. unfold update.
  pose proof (update_loop_spec (chars t) (frame t) (queue t)
                (drawn h) [] 0) as Hspec.
  destruct (update_loop rnd (chars t) (frame t) (queue t) (drawn h) [] 0)
    as [[[o c] q'] k'].
  destruct Hspec as (_ & _ & Hiff & Hdone).
  destruct (Hdone Hall) as (Ho & Hq & Hk). subst o q' k'.
  apply Hiff in Hall. rewrite with_queue_same, with_drawn_same.
  rewrite Hall, Z.add_0_l, Z.eqb_refl, Hp. reflexivity.
Qed.

(** Some task incomplete: the promise is left alone, one frame is
    requested and the counter advances. *)
Lemma update_running (t : TextScramble) (h : Host) :
  ~ all_complete (frame t) (queue t) ->
  exists output q' k',
    Forall2 same_plan (queue t) q' /\
    update rnd txt t h =
    Normal
      (with_frame (frame t + 1)
         (with_frameRequest (Some (S (rafCounter h))) (with_queue q' t)),
       with_raf (rafCallbacks h ++ [S (rafCounter h)]) (S (rafCounter h))
         (set_innerHTML txt output (with_drawn k' h))).
Proof.
  intros Hnot. unfold update.
  pose proof (update_loop_spec (chars t) (frame t) (queue t)
                (drawn h) [] 0) as Hspec.
  destruct (update_loop rnd (chars t) (frame t) (queue t) (drawn h) [] 0)
    as [[[o c] q'] k'].
  destruct Hspec as (Hplan & _ & Hiff & _).
  exists o, q', k'. split; [assumption|].
  cbn [queue with_queue].
  assert (Hlen : js_length q' = js_length (queue t)).
  { unfold js_length. f_equal. symmetry.
    eapply Forall2_length; eassumption. }
  rewrite Hlen.
  destruct (Z.eqb_spec c (js_length (queue t))) as [Hc|Hc].
  - exfalso. apply Hnot, Hiff. lia.
  - reflexivity.
Qed.

(** An update entered with no callback pending and the session's promise
    unresolved either finishes the session or keeps it running. *)
Lemma update_outcome (t : TextScramble) (h : Host) (p : nat) :
  rafCallbacks h = [] ->
  resolve t = Some p ->
  promise_status p h = Some (Pending, 0%nat) ->
  calls_ok h ->
  exists t' h',
    update rnd txt t h = Normal (t', h') /\
    sched_ok txt t' h' /\
    resolve t' = Some p /\ chars t' = chars t /\
    Forall2 same_plan (queue t) (queue t') /\
    (forall q, q <> p -> promise_status q h' = promise_status q h) /\
    length (promises h') = length (promises h) /\
    timers h' = timers h /\
    ((all_complete (frame t) (queue t) /\ t' = t /\
      rafCallbacks h' = [] /\
      promise_status p h' = Some (Fulfilled, 1%nat) /\
      dom h' = rendered txt (concat (map to (queue t))))
     \/
     (~ all_complete (frame t) (queue t) /\ frame t' = frame t + 1 /\
      rafCallbacks h' = [S (rafCounter h)] /\
      promise_status p h' = Some (Pending, 0%nat))).
Proof.
  intros Hraf Hp Hst Hcalls.
  destruct (all_complete_dec (frame t) (queue t)) as [Hall|Hnot].
  - rewrite (update_complete t h p Hall Hp).
    set (h1 := set_innerHTML txt (concat (map to (queue t))) h).
    assert (Hst1 : promise_status p h1 = Some (Pending, 0%nat)) by exact Hst.
    destruct (resolve_promise_frame p h1) as (Hr & Hd & Ht & Hl).
    exists t, (resolve_promise p h1). split; [reflexivity|].
    split.
    { split.
      - rewrite Hr. cbn. rewrite Hraf. exact I.
      - apply resolve_promise_calls; assumption. }
    split; [assumption|]. split; [reflexivity|].
    split; [apply Forall2_same_plan_refl|].
    split; [intros q Hq; now rewrite resolve_promise_other by congruence|].
    split; [exact Hl|]. split; [exact Ht|].
    left. split; [assumption|]. split; [reflexivity|].
    split; [rewrite Hr; exact Hraf|].
    split; [now apply resolve_promise_status|].
    rewrite Hd. reflexivity.
  - destruct (update_running t h Hnot) as (o & q' & k' & Hplan & Heq).
    rewrite Heq. eexists _, _. split; [reflexivity|].
    split.
    { split; cbn.
      - rewrite Hraf. cbn. repeat split; auto. exists p. split; assumption.
      - exact Hcalls. }
    cbn. rewrite Hraf. cbn.
    repeat split; auto.
Qed.

Lemma bind_pair_eta {A B : Type} (m : Completion (A * B)) :
  bind m (fun '(a, b) => Normal (a, b)) = m.
Proof. destruct m as [[a b]|e]; reflexivity. Qed.

(** A display refresh runs the pending callback, if there is one. *)
Lemma animation_frame_cases (t : TextScramble) (h : Host) :
  sched_ok txt t h ->
  (rafCallbacks h = [] /\ animation_frame rnd txt t h = Normal (t, h)) \/
  (exists x p,
      rafCallbacks h = [x] /\ resolve t = Some p /\
      promise_status p h = Some (Pending, 0%nat) /\
      animation_frame rnd txt t h =
      update rnd txt t (with_raf [] (rafCounter h) h)).
Proof.
  intros [Hraf _]. unfold animation_frame.
  destruct (rafCallbacks h) as [|x rest] eqn:E.
  - left. split; reflexivity.
  - right. destruct Hraf as (-> & _ & _ & _ & p & Hp & Hst).
    exists x, p. repeat split; auto.
    cbn [run_callbacks]. rewrite E. cbn [existsb].
    rewrite Nat.eqb_refl. cbn [orb].
    unfold cancelAnimationFrame. rewrite E. cbn [filter].
    rewrite Nat.eqb_refl. cbn [negb].
    apply bind_pair_eta.
Qed.

Lemma animation_frame_outcome (t : TextScramble) (h : Host) :
  sched_ok txt t h ->
  exists t' h',
    animation_frame rnd txt t h = Normal (t', h') /\
    sched_ok txt t' h' /\
    resolve t' = resolve t /\ chars t' = chars t /\
    Forall2 same_plan (queue t) (queue t') /\
    frame t <= frame t' /\
    (forall q, resolve t <> Some q ->
               promise_status q h' = promise_status q h) /\
    length (promises h') = length (promises h) /\
    timers h' = timers h.
Proof.
  intros Hok. destruct (animation_frame_cases t h Hok)
    as [[Hraf Heq] | (x & p & Hraf & Hp & Hst & Heq)].
  - exists t, h. rewrite Heq. repeat split; auto.
    + apply Hok.
    + apply Hok.
    + apply Forall2_same_plan_refl.
    + lia.
  - destruct (update_outcome t (with_raf [] (rafCounter h) h) p)
      as (t' & h' & Hu & Hok' & Hr & Hc & Hplan & Hoth & Hlen & Htm & Hcase);
      auto.
    + apply Hok.
    + exists t', h'. rewrite Heq, Hu. repeat split; auto; try apply Hok'.
      * congruence.
      * destruct Hcase as [(_ & -> & _) | (_ & Hf & _)]; lia.
      * intros q Hq. apply Hoth. congruence.
Qed.

(** *** One call of [setText] *)

Lemma setText_unfold (t : TextScramble) (h : Host) (s : jsstring) :
  setText rnd txt (Some s) t h =
  bind (update rnd txt (prepared_scrambler rnd s t h) (prepared_host s t h))
       (fun '(t', h') => Normal (length (promises h), t', h')).
Proof.
  unfold setText, prepared_scrambler, prepared_host, session_queue,
    session_length.
  cbn [new_Promise fst snd]. cbn [drawn with_promises].
  rewrite setText_loop_spec. cbn [app]. reflexivity.
Qed.

Lemma update_total (t : TextScramble) (h : Host) (p : nat) :
  resolve t = Some p ->
  exists t' h',
    update rnd txt t h = Normal (t', h') /\
    Forall2 same_plan (queue t) (queue t').
Proof.
  intros Hp.
  destruct (all_complete_dec (frame t) (queue t)) as [Hall|Hnot].
  - rewrite (update_complete t h p Hall Hp). eexists _, _.
    split; [reflexivity | apply Forall2_same_plan_refl].
  - destruct (update_running t h Hnot) as (o & q' & k' & Hplan & Heq).
    rewrite Heq. eexists _, _. split; [reflexivity | exact Hplan].
Qed.

Lemma prepared_host_facts (t : TextScramble) (h : Host) (s : jsstring) :
  let p := length (promises h) in
  let h0 := prepared_host s t h in
  promise_status p h0 = Some (Pending, 0%nat) /\
  (forall q, (q < p)%nat -> promise_status q h0 = promise_status q h) /\
  length (promises h0) = S p /\
  timers h0 = timers h /\ dom h0 = dom h /\
  (calls_ok h -> calls_ok h0) /\
  (sched_ok txt t h -> rafCallbacks h0 = []).
Proof.
  cbn zeta. unfold prepared_host.
  assert (Hprom : forall x h', promises (cancelAnimationFrame x h')
                               = promises h').
  { intros [x|] h'; reflexivity. }
  assert (Hst : forall q x h', promise_status q (cancelAnimationFrame x h')
                               = promise_status q h').
  { intros q x h'. unfold promise_status. now rewrite Hprom. }
  split; [rewrite Hst; apply (new_Promise_status h)|].
  split; [intros q Hq; rewrite Hst; now apply (new_Promise_other h)|].
  split; [rewrite Hprom; cbn; rewrite length_app; cbn; lia|].
  split; [destruct (frameRequest t); reflexivity|].
  split; [destruct (frameRequest t); reflexivity|].
  split.
  - intros Hc. unfold calls_ok. rewrite Hprom. cbn.
    apply Forall_app. split; [exact Hc|]. constructor; [cbn; lia|constructor].
  - intros [Hraf _]. destruct (rafCallbacks h) as [|x rest] eqn:E.
    + destruct (frameRequest t); cbn; rewrite ?E; reflexivity.
    + destruct Hraf as (-> & Hfr & _). rewrite Hfr. cbn. rewrite E.
      cbn. rewrite Nat.eqb_refl. reflexivity.
Qed.

(** [setText] on a well-scheduled scrambler: the new promise is the
    next id, the first update runs at frame 0 with nothing pending, and
    the session is either finished at once or running at frame 1. *)
Lemma setText_outcome (t : TextScramble) (h : Host) (s : jsstring) :
  sched_ok txt t h ->
  let p := length (promises h) in
  let sq := session_queue rnd (textContent (dom h)) s (drawn h) in
  exists t1 h1,
    setText rnd txt (Some s) t h = Normal (p, t1, h1) /\
    sched_ok txt t1 h1 /\
    resolve t1 = Some p /\ chars t1 = chars t /\
    Forall2 same_plan sq (queue t1) /\
    (forall q, (q < p)%nat -> promise_status q h1 = promise_status q h) /\
    length (promises h1) = S p /\
    timers h1 = timers h /\
    update rnd txt (prepared_scrambler rnd s t h) (prepared_host s t h) =
    Normal (t1, h1) /\
    ((all_complete 0 sq /\ frame t1 = 0 /\ rafCallbacks h1 = [] /\
      promise_status p h1 = Some (Fulfilled, 1%nat) /\
      dom h1 = rendered txt (concat (map to sq)))
     \/
     (~ all_complete 0 sq /\ frame t1 = 1 /\
      rafCallbacks h1 = [S (rafCounter h)] /\
      promise_status p h1 = Some (Pending, 0%nat))).
Proof.
  intros Hok p sq. rewrite setText_unfold.
  destruct (prepared_host_facts t h s)
    as (Hst & Hoth & Hlen & Htm & Hdom & Hcalls & Hraf).
  destruct (update_outcome (prepared_scrambler rnd s t h)
              (prepared_host s t h) p)
    as (t1 & h1 & Hu & Hok1 & Hr & Hc & Hplan & Hoth1 & Hlen1 & Htm1 & Hcase);
    auto.
  { apply Hcalls, Hok. }
  rewrite Hu. cbn [bind]. exists t1, h1.
  split; [reflexivity|]. split; [assumption|]. split; [assumption|].
  split; [exact Hc|]. split; [exact Hplan|].
  split.
  { intros q Hq. rewrite Hoth1 by (fold p; lia). now apply Hoth. }
  split; [rewrite Hlen1; exact Hlen|].
  split; [rewrite Htm1; exact Htm|].
  split; [reflexivity|].
  destruct Hcase as [(Hall & -> & H1 & H2 & H3) | (Hnot & Hf & H1 & H2)].
  - left. repeat split; auto.
  - right. repeat split; auto. rewrite H1. unfold prepared_host.
    destruct (frameRequest t); reflexivity.
Qed.

(** *** Runs *)

Lemma run_frames_exec (n : nat) :
  forall t h, run_frames rnd txt n t h = exec rnd txt (repeat Refresh n) t h.
Proof.
  induction n as [|n IH]; intros t h; [reflexivity|].
  cbn [run_frames repeat exec step].
  destruct (animation_frame rnd txt t h) as [[t' h']|e]; cbn; auto.
Qed.

Lemma run_frames_idle (n : nat) (t : TextScramble) (h : Host) :
  rafCallbacks h = [] -> run_frames rnd txt n t h = Normal (t, h).
Proof.
  intros Hraf. induction n as [|n IH]; [reflexivity|].
  cbn [run_frames]. unfold animation_frame. rewrite Hraf. cbn. exact IH.
Qed.

Lemma same_plan_map_to (q q' : list Task) :
  Forall2 same_plan q q' -> map to q' = map to q.
Proof.
  induction 1 as [|a b q q' Hab _ IH]; [reflexivity|].
  cbn. destruct Hab as (_ & Ht & _). rewrite IH, Ht. reflexivity.
Qed.

Lemma sched_ok_running (t : TextScramble) (h : Host) (x p : nat) :
  sched_ok txt t h -> rafCallbacks h = [x] -> resolve t = Some p ->
  promise_status p h = Some (Pending, 0%nat).
Proof.
  intros [Hraf _] E Hp. rewrite E in Hraf.
  destruct Hraf as (_ & _ & _ & _ & p' & Hp' & Hst). congruence.
Qed.

(** A running session left alone: the callback stays pending and the
    counter advances by one per refresh until the frame numbered
    [session_end], whose update renders the target, resolves the promise
    and requests nothing. *)
Lemma run_frames_running (n : nat) :
  forall (t : TextScramble) (h : Host) (x p : nat),
    sched_ok txt t h -> rafCallbacks h = [x] -> resolve t = Some p ->
    0 <= frame t <= session_end (queue t) ->
    exists t' h',
      run_frames rnd txt n t h = Normal (t', h') /\
      sched_ok txt t' h' /\ resolve t' = Some p /\
      Forall2 same_plan (queue t) (queue t') /\
      if Z.of_nat n <=? session_end (queue t) - frame t then
        frame t' = frame t + Z.of_nat n /\
        (exists y, rafCallbacks h' = [y]) /\
        promise_status p h' = Some (Pending, 0%nat)
      else
        frame t' = session_end (queue t) /\ rafCallbacks h' = [] /\
        promise_status p h' = Some (Fulfilled, 1%nat) /\
        dom h' = rendered txt (concat (map to (queue t))) /\
        all_complete (frame t') (queue t').
Proof.
  induction n as [|n IH]; intros t h x p Hok Hraf Hp Hfr.
  - exists t, h. split; [reflexivity|]. split; [assumption|].
    split; [assumption|]. split; [apply Forall2_same_plan_refl|].
    destruct (Z.leb_spec (Z.of_nat 0) (session_end (queue t) - frame t));
      [|lia].
    split; [cbn; lia|]. split; [eauto|].
    eapply sched_ok_running; eassumption.
  - cbn [run_frames].
    destruct (animation_frame_cases t h Hok)
      as [[Hraf' _] | (x' & p' & _ & Hp' & Hst & Heq)]; [congruence|].
    assert (p' = p) by congruence. subst p'.
    destruct (update_outcome t (with_raf [] (rafCounter h) h) p)
      as (t1 & h1 & Hu & Hok1 & Hr1 & _ & Hplan & _ & _ & _ & Hcase);
      auto; [apply Hok|].
    rewrite Heq, Hu. cbn [bind].
    pose proof (all_complete_session_end (frame t) (queue t)
                  ltac:(lia)) as Hiff.
    destruct Hcase as [(Hall & -> & Hr & Hs & Hd) | (Hnot & Hf & Hy & Hs)].
    + apply Hiff in Hall.
      rewrite (run_frames_idle n t h1 Hr).
      exists t, h1. split; [reflexivity|]. split; [assumption|].
      split; [assumption|]. split; [apply Forall2_same_plan_refl|].
      destruct (Z.leb_spec (Z.of_nat (S n))
                  (session_end (queue t) - frame t)); [lia|].
      repeat split; auto; try lia. apply Hiff. lia.
    + assert (Hlt : frame t < session_end (queue t)).
      { destruct (Z.lt_ge_cases (frame t) (session_end (queue t)));
          [assumption|]. exfalso. apply Hnot, Hiff. lia. }
      pose proof (same_plan_session_end _ _ Hplan) as HE.
      destruct (IH t1 h1 _ p Hok1 Hy Hr1 ltac:(lia))
        as (t2 & h2 & Hrun & Hok2 & Hr2 & Hplan2 & Hres).
      exists t2, h2. split; [assumption|]. split; [assumption|].
      split; [assumption|].
      split; [eapply Forall2_same_plan_trans; eassumption|].
      rewrite HE, Hf in Hres.
      destruct (Z.leb_spec (Z.of_nat (S n))
                  (session_end (queue t) - frame t)) as [Hle|Hgt];
        destruct (Z.leb_spec (Z.of_nat n)
                    (session_end (queue t) - (frame t + 1))); try lia.
      * destruct Hres as (Hf2 & Hy2 & Hs2). repeat split; auto. lia.
      * destruct Hres as (Hf2 & Hr2' & Hs2 & Hd2 & Hall2).
        repeat split; auto.
        rewrite Hd2, (same_plan_map_to _ _ Hplan). reflexivity.
Qed.

(** Every run keeps the scheduling invariant and never throws; a promise
    older than the current one is out of reach of every later step. *)
Lemma step_outcome (e : Event) (t : TextScramble) (h : Host) :
  sched_ok txt t h -> resolve_ok t h ->
  exists t' h',
    step rnd txt e t h = Normal (t', h') /\
    sched_ok txt t' h' /\ resolve_ok t' h' /\ chars t' = chars t /\
    (forall q r, resolve t = Some r -> (q < r)%nat ->
                 promise_status q h' = promise_status q h /\
                 exists r', resolve t' = Some r' /\ (q < r')%nat).
Proof.
  intros Hok Hres. destruct e as [s|]; cbn [step].
  - destruct (setText_outcome t h s Hok)
      as (t1 & h1 & Hs & Hok1 & Hr & Hc & _ & Hoth & Hlen & _).
    rewrite Hs. cbn [bind]. exists t1, h1.
    split; [reflexivity|]. split; [assumption|].
    split; [intros r Hr'; rewrite Hr in Hr'; injection Hr' as <-; lia|].
    split; [assumption|].
    intros q r Hr0 Hq. specialize (Hres r Hr0).
    split; [apply Hoth; lia|].
    eexists; split; [exact Hr | lia].
  - destruct (animation_frame_outcome t h Hok)
      as (t1 & h1 & Hs & Hok1 & Hr & Hc & _ & _ & Hoth & Hlen & _).
    rewrite Hs. exists t1, h1.
    split; [reflexivity|]. split; [assumption|].
    split; [intros r Hr'; rewrite Hlen; apply Hres; congruence|].
    split; [assumption|].
    intros q r Hr0 Hq. split.
    + apply Hoth. rewrite Hr0. intros [=]. lia.
    + exists r. split; [congruence | assumption].
Qed.

Lemma exec_outcome (es : list Event) :
  forall (t : TextScramble) (h : Host),
    sched_ok txt t h -> resolve_ok t h ->
    exists t' h',
      exec rnd txt es t h = Normal (t', h') /\
      sched_ok txt t' h' /\ resolve_ok t' h' /\ chars t' = chars t /\
      (forall q r, resolve t = Some r -> (q < r)%nat ->
                   promise_status q h' = promise_status q h).
Proof.
  induction es as [|e es IH]; intros t h Hok Hres.
  - exists t, h. split; [reflexivity|]. auto.
  - cbn [exec].
    destruct (step_outcome e t h Hok Hres)
      as (t1 & h1 & Hs & Hok1 & Hres1 & Hc1 & Hold).
    rewrite Hs. cbn [bind].
    destruct (IH t1 h1 Hok1 Hres1) as (t2 & h2 & He & Hok2 & Hres2 & Hc2 & Hold2).
    exists t2, h2. split; [assumption|]. split; [assumption|].
    split; [assumption|]. split; [congruence|].
    intros q r Hr Hq. destruct (Hold q r Hr Hq) as (Hst & r' & Hr' & Hq').
    rewrite (Hold2 q r' Hr' Hq'). exact Hst.
Qed.

Lemma initial_ok (e : Element) :
  sched_ok txt new_TextScramble (fresh_host e) /\
  resolve_ok new_TextScramble (fresh_host e).
Proof.
  split; [split; [exact I | constructor] | intros r; discriminate].
Qed.

Lemma reachable_ok (e : Element) (es : list Event) (t : TextScramble)
      (h : Host) :
  exec rnd txt es new_TextScramble (fresh_host e) = Normal (t, h) ->
  sched_ok txt t h /\ resolve_ok t h /\ chars t = glyphs.
Proof.
  intros He. destruct (initial_ok e) as [H1 H2].
  destruct (exec_outcome es _ _ H1 H2) as (t' & h' & He' & Hok & Hres & Hc & _).
  rewrite He in He'. injection He' as <- <-. auto.
Qed.


(** *** The session built by [setText] *)

Lemma Forall2_nth_error {A B : Type} (R : A -> B -> Prop) (l : list A)
      (l' : list B) (i : nat) (b : B) :
  Forall2 R l l' -> nth_error l' i = Some b ->
  exists a, nth_error l i = Some a /\ R a b.
Proof.
  intros H. revert i. induction H as [|x y l l' Hxy _ IH]; intros [|i] Hi;
    cbn in *; try discriminate.
  - injection Hi as <-. eauto.
  - auto.
Qed.

Lemma session_length_max (oldText newText : jsstring) :
  session_length oldText newText = Nat.max (length oldText) (length newText).
Proof. unfold session_length, js_length. lia. Qed.

Lemma session_queue_length (oldText newText : jsstring) (k : nat) :
  length (session_queue rnd oldText newText k) =
  Nat.max (length oldText) (length newText).
Proof.
  unfold session_queue. rewrite length_map, length_seq.
  apply session_length_max.
Qed.

Lemma session_queue_nth (oldText newText : jsstring) (k i : nat) (a : Task) :
  nth_error (session_queue rnd oldText newText k) i = Some a ->
  a = planned_task rnd oldText newText (Z.of_nat i) (k + 2 * i)%nat.
Proof.
  unfold session_queue. intros H.
  assert (Hi : (i < session_length oldText newText)%nat).
  { rewrite <- (length_seq (session_length oldText newText) 0).
    rewrite <- (length_map
                  (fun j => planned_task rnd oldText newText (Z.of_nat j)
                              (k + 2 * j)%nat)).
    apply nth_error_Some. congruence. }
  rewrite nth_error_map, nth_error_seq in H.
  destruct (Nat.ltb_spec i (session_length oldText newText)); [|lia].
  cbn [option_map Nat.add] in H. injection H as <-. reflexivity.
Qed.

Lemma session_queue_target (oldText newText : jsstring) (k : nat) :
  concat (map to (session_queue rnd oldText newText k)) = newText.
Proof.
  unfold session_queue. rewrite map_map. cbn [to planned_task].
  apply concat_units. rewrite session_length_max. lia.
Qed.

Lemma session_queue_complete_iff (oldText newText : jsstring) (k : nat)
      (q : list Task) :
  Forall2 same_plan (session_queue rnd oldText newText k) q ->
  (all_complete 0 (session_queue rnd oldText newText k) <->
   session_end q = 0).
Proof.
  intros Hplan. rewrite (same_plan_session_end _ _ Hplan).
  rewrite (all_complete_session_end 0) by lia.
  pose proof (session_end_nonneg (session_queue rnd oldText newText k)).
  lia.
Qed.

(** *** Claims about one scrambler *)

(** C1 (amended).  A call of [setText] in any state reached from
    construction returns a promise [p].  Whatever happens after the call,
    further calls of [setText] included, no promise of the page ever has two
    resolve calls.  Left to run, the session has its update of frame
    [session_end] resolve [p]: while fewer refreshes than that have
    passed, [p] is pending with no resolve call, one callback is pending
    and some task still has [frame < end]; from then on, whatever the
    number of refreshes, [p] is fulfilled with exactly one resolve call,
    every task has [end <= frame] and no callback is pending. *)
Theorem completion_fires_exactly_once
        (e : Element) (es : list Event) (t : TextScramble) (h : Host)
        (newText : jsstring) :
  exec rnd txt es new_TextScramble (fresh_host e) = Normal (t, h) ->
  exists p t1 h1,
    setText rnd txt (Some newText) t h = Normal (p, t1, h1) /\
    (forall es' : list Event,
      exists t2 h2,
        exec rnd txt es' t1 h1 = Normal (t2, h2) /\ calls_ok h2) /\
    forall n : nat,
    exists t2 h2,
      run_frames rnd txt n t1 h1 = Normal (t2, h2) /\
      Forall2 same_plan (queue t1) (queue t2) /\
      if Z.of_nat n <? session_end (queue t1) then
        promise_status p h2 = Some (Pending, 0%nat) /\
        (exists y, rafCallbacks h2 = [y]) /\
        frame t2 = Z.of_nat n + 1 /\
        ~ all_complete (Z.of_nat n) (queue t2)
      else
        promise_status p h2 = Some (Fulfilled, 1%nat) /\
        rafCallbacks h2 = [] /\
        frame t2 = session_end (queue t1) /\
        all_complete (frame t2) (queue t2).
Proof.
  intros Hreach. destruct (reachable_ok e es t h Hreach) as (Hok & _ & _).
  destruct (setText_outcome t h newText Hok)
    as (t1 & h1 & Hs & Hok1 & Hr & _ & Hplan & _ & Hlen & _ & _ & Hcase).
  exists (length (promises h)), t1, h1. split; [exact Hs|].
  split.
  { intros es'.
    assert (Hres1 : resolve_ok t1 h1).
    { intros r Hr'. rewrite Hr in Hr'. injection Hr' as <-. lia. }
    destruct (exec_outcome es' t1 h1 Hok1 Hres1)
      as (t2 & h2 & He & Hok2 & _).
    exists t2, h2. split; [assumption | apply Hok2]. }
  pose proof (session_queue_complete_iff _ _ _ _ Hplan) as Hiff.
  pose proof (session_end_nonneg (queue t1)) as Hnn.
  intros n.
  destruct Hcase as [(Hall & Hf & Hraf & Hst & _) | (Hnot & Hf & Hraf & Hst)].
  - apply Hiff in Hall as HE.
    rewrite (run_frames_idle n t1 h1 Hraf). exists t1, h1.
    split; [reflexivity|].
    split; [apply Forall2_same_plan_refl|].
    destruct (Z.ltb_spec (Z.of_nat n) (session_end (queue t1))); [lia|].
    repeat split; auto; try lia.
    rewrite Hf. eapply same_plan_all_complete; eassumption.
  - assert (HE : 1 <= session_end (queue t1)).
    { destruct (Z.eq_dec (session_end (queue t1)) 0) as [E0|E0]; [|lia].
      exfalso. apply Hnot, Hiff, E0. }
    destruct (run_frames_running n t1 h1 _ _ Hok1 Hraf Hr ltac:(lia))
      as (t2 & h2 & Hrun & Hok2 & _ & Hplan2 & Hres).
    exists t2, h2. split; [assumption|].
    split; [assumption|]. rewrite Hf in Hres.
    destruct (Z.ltb_spec (Z.of_nat n) (session_end (queue t1)));
      destruct (Z.leb_spec (Z.of_nat n) (session_end (queue t1) - 1));
      try lia.
    + destruct Hres as (Hf2 & Hy & Hst2). repeat split; auto; try lia.
      rewrite (all_complete_session_end (Z.of_nat n)) by lia.
      rewrite (same_plan_session_end _ _ Hplan2). lia.
    + destruct Hres as (Hf2 & Hraf2 & Hst2 & _ & Hall2). auto.
Qed.

(** C2.  [setText] always returns, and the queue it leaves has one task
    per position below [max(len(oldText), len(newText))], whose [from] is
    the unit of the shown text at that position and whose [to] is the unit
    of [newText] there, each empty past the end of its string. *)
Theorem setText_builds_session
        (t : TextScramble) (h : Host) (newText : jsstring) :
  exists p t1 h1,
    setText rnd txt (Some newText) t h = Normal (p, t1, h1) /\
    length (queue t1) =
    Nat.max (length (textContent (dom h))) (length newText) /\
    forall i : nat,
      (i < Nat.max (length (textContent (dom h))) (length newText))%nat ->
      exists task,
        nth_error (queue t1) i = Some task /\
        from task = match nth_error (textContent (dom h)) i with
                    | Some c => [c]
                    | None => []
                    end /\
        to task = match nth_error newText i with
                  | Some c => [c]
                  | None => []
                  end.
Proof.
  rewrite setText_unfold.
  destruct (update_total (prepared_scrambler rnd newText t h)
              (prepared_host newText t h) (length (promises h)) eq_refl)
    as (t1 & h1 & Hu & Hplan).
  rewrite Hu. cbn [bind]. exists (length (promises h)), t1, h1.
  split; [reflexivity|].
  cbn [prepared_scrambler queue with_frame with_queue] in Hplan.
  pose proof (Forall2_length Hplan) as Hlen.
  rewrite session_queue_length in Hlen.
  split; [congruence|].
  intros i Hi.
  destruct (nth_error (queue t1) i) as [task|] eqn:E.
  - exists task. split; [reflexivity|].
    destruct (Forall2_nth_error _ _ _ _ _ Hplan E) as (a & Ha & Hfrom & Hto & _).
    apply session_queue_nth in Ha. subst a.
    rewrite <- Hfrom, <- Hto. cbn [from to planned_task].
    rewrite !or_empty_index. auto.
  - apply nth_error_None in E. lia.
Qed.

(** C3.  In a state reached from construction with a frame callback [x]
    pending for the session of promise [p]: [x] is the only callback;
    [setText] then runs its first update at frame 0 with nothing pending,
    so [x] is cancelled; the promise it returns is another one; every task
    of the new queue has as [from] the unit, at its position, of the text
    of the markup rendered at that moment; and whatever happens afterwards
    [p] stays pending with no resolve call and at most one callback is
    pending. *)
Theorem setText_supersedes_session
        (e : Element) (es : list Event) (t : TextScramble) (h : Host)
        (x p : nat) (newText : jsstring) :
  exec rnd txt es new_TextScramble (fresh_host e) = Normal (t, h) ->
  In x (rafCallbacks h) ->
  resolve t = Some p ->
  rafCallbacks h = [x] /\ frameRequest t = Some x /\
  promise_status p h = Some (Pending, 0%nat) /\
  textContent (dom h) = txt (innerHTML (dom h)) /\
  exists p' t1 h1,
    setText rnd txt (Some newText) t h = Normal (p', t1, h1) /\
    p' <> p /\ resolve t1 = Some p' /\
    update rnd txt (prepared_scrambler rnd newText t h)
      (prepared_host newText t h) = Normal (t1, h1) /\
    frame (prepared_scrambler rnd newText t h) = 0 /\
    rafCallbacks (prepared_host newText t h) = [] /\
    ~ In x (rafCallbacks h1) /\
    (forall i task,
        nth_error (queue t1) i = Some task ->
        from task = match nth_error (txt (innerHTML (dom h))) i with
                    | Some c => [c]
                    | None => []
                    end) /\
    forall es' : list Event,
    exists t2 h2,
      exec rnd txt es' t1 h1 = Normal (t2, h2) /\
      promise_status p h2 = Some (Pending, 0%nat) /\
      (length (rafCallbacks h2) <= 1)%nat.
Proof.
  intros Hreach Hin Hp.
  destruct (reachable_ok e es t h Hreach) as (Hok & Hres & _).
  pose proof Hok as [Hraf _].
  destruct (rafCallbacks h) as [|x' rest] eqn:E; [contradiction|].
  destruct Hraf as (-> & Hfr & Hfresh & Hdom & p0 & Hp0 & Hst).
  destruct Hin as [->|[]].
  assert (p0 = p) by congruence. subst p0.
  split; [reflexivity|]. split; [assumption|]. split; [assumption|].
  split; [assumption|].
  destruct (setText_outcome t h newText Hok)
    as (t1 & h1 & Hs & Hok1 & Hr & _ & Hplan & Hoth & Hlen & _ & Hu & Hcase).
  exists (length (promises h)), t1, h1.
  pose proof (Hres p Hp) as Hlt.
  split; [exact Hs|]. split; [lia|]. split; [assumption|].
  split; [assumption|]. split; [reflexivity|].
  split; [apply (prepared_host_facts t h newText); exact Hok|].
  split.
  { destruct Hcase as [(_ & _ & -> & _) | (_ & _ & -> & _)]; cbn; lia. }
  split.
  { intros i task Hi.
    destruct (Forall2_nth_error _ _ _ _ _ Hplan Hi) as (a & Ha & Hfrom & _).
    apply session_queue_nth in Ha. subst a.
    rewrite <- Hfrom, <- Hdom. cbn [from planned_task].
    apply or_empty_index. }
  intros es'.
  assert (Hres1 : resolve_ok t1 h1).
  { intros r Hr'. rewrite Hr in Hr'. injection Hr' as <-. lia. }
  destruct (exec_outcome es' t1 h1 Hok1 Hres1)
    as (t2 & h2 & He & Hok2 & _ & _ & Hold).
  exists t2, h2. split; [assumption|]. split.
  - rewrite (Hold p _ Hr Hlt). rewrite Hoth by lia. exact Hst.
  - destruct Hok2 as [Hraf2 _].
    destruct (rafCallbacks h2) as [|y rest2]; [cbn; lia|].
    destruct Hraf2 as (-> & _). cbn. lia.
Qed.



(** *** Ranges and glyphs *)














(** *** The rotation cycle *)

Lemma sched_ok_transfer (t : TextScramble) (h h' : Host) :
  rafCallbacks h' = rafCallbacks h -> rafCounter h' = rafCounter h ->
  dom h' = dom h ->
  (forall q, promise_status q h' = promise_status q h) ->
  calls_ok h' ->
  sched_ok txt t h -> sched_ok txt t h'.
Proof.
  intros Hr Hc Hd Hs Hcalls [Hraf _]. split; [|assumption].
  rewrite Hr, Hc, Hd. destruct (rafCallbacks h) as [|x rest]; [exact I|].
  destruct Hraf as (H1 & H2 & H3 & H4 & p & Hp & Hst).
  repeat split; auto. exists p. rewrite Hs. auto.
Qed.

Lemma promise_then_status (p q : nat) (j : Job) (h : Host) :
  promise_status q (promise_then p j h) = promise_status q h.
Proof.
  unfold promise_then, promise_status.
  destruct (nth_error (promises h) p) as [pr|] eqn:E; [|reflexivity].
  destruct (pstate pr) eqn:Es; [|reflexivity]. cbn.
  destruct (Nat.eq_dec p q) as [->|Hne].
  - rewrite nth_error_list_set_eq
      by (apply nth_error_Some; congruence).
    rewrite E. cbn. now rewrite Es.
  - now rewrite nth_error_list_set_neq.
Qed.

Lemma promise_then_calls (p : nat) (j : Job) (h : Host) :
  calls_ok h -> calls_ok (promise_then p j h).
Proof.
  unfold calls_ok, promise_then. intros Hc.
  destruct (nth_error (promises h) p) as [pr|] eqn:E; [|assumption].
  destruct (pstate pr); [|assumption]. cbn.
  apply Forall_list_set; [|assumption]. cbn.
  rewrite Forall_forall in Hc. apply Hc.
  eapply nth_error_In; eassumption.
Qed.

Lemma promise_then_host (p : nat) (j : Job) (h : Host) :
  rafCallbacks (promise_then p j h) = rafCallbacks h /\
  rafCounter (promise_then p j h) = rafCounter h /\
  dom (promise_then p j h) = dom h /\
  timers (promise_then p j h) = timers h.
Proof.
  unfold promise_then.
  destruct (nth_error (promises h) p) as [pr|]; [|auto].
  destruct (pstate pr); cbn; auto.
Qed.

Lemma promise_then_waiting (p : nat) (h : Host) (v : PromiseState * nat) :
  promise_status p h = Some v ->
  continuation_waiting p (promise_then p ScheduleNext h).
Proof.
  intros Hst. pose proof (promise_status_lt _ _ _ Hst) as Hlt.
  unfold promise_status in Hst. unfold continuation_waiting, promise_then.
  destruct (nth_error (promises h) p) as [pr|] eqn:E; [|discriminate].
  destruct (pstate pr) eqn:Es.
  - right. cbn. rewrite nth_error_list_set_eq by assumption.
    eexists. split; [reflexivity|]. cbn. split; [reflexivity|].
    apply in_or_app. right. left. reflexivity.
  - left. cbn. apply in_or_app. right. left. reflexivity.
Qed.

Lemma run_jobs_facts (js : list Job) :
  forall (r : WordRotator) (h : Host),
    let '(r', h') := run_jobs js r h in
    scrambler r' = scrambler r /\ words r' = words r /\
    currentIndex r' = currentIndex r /\
    promises h' = promises h /\ rafCallbacks h' = rafCallbacks h /\
    rafCounter h' = rafCounter h /\ dom h' = dom h.
Proof.
  induction js as [|j js IH]; intros r h.
  - cbn. repeat split.
  - cbn [run_jobs]. destruct j. cbn [run_job setTimeout].
    specialize (IH (with_timeoutId (Some (S (timerCounter h))) r)
                   (with_timers (timers h ++ [(S (timerCounter h), interval r)])
                      (S (timerCounter h)) h)).
    destruct (run_jobs js _ _) as [r' h']. exact IH.
Qed.

Lemma checkpoint_ok (r : WordRotator) (h : Host) :
  rot_ok txt r h ->
  rot_ok txt (fst (checkpoint r h)) (snd (checkpoint r h)) /\
  words (fst (checkpoint r h)) = words r.
Proof.
  intros [Hok Hidx]. unfold checkpoint.
  pose proof (run_jobs_facts (microtasks h) r (with_microtasks [] h)) as H.
  destruct (run_jobs (microtasks h) r (with_microtasks [] h)) as [r' h'].
  cbn [fst snd]. destruct H as (Hs & Hw & Hi & Hp & Hr & Hc & Hd).
  split; [|assumption]. split.
  - rewrite Hs. apply (sched_ok_transfer _ h); auto.
    + intros q. unfold promise_status. now rewrite Hp.
    + unfold calls_ok. rewrite Hp. apply Hok.
  - rewrite Hi, Hw. assumption.
Qed.

Lemma js_array_index_in_range (ws : list jsstring) (i : Z) :
  0 <= i < js_length ws -> exists w, js_array_index ws i = Some w.
Proof.
  intros Hi. unfold js_array_index, js_length in *.
  destruct (Z.ltb_spec i 0); [lia|].
  destruct (nth_error ws (Z.to_nat i)) as [w|] eqn:E; [eauto|].
  apply nth_error_None in E. lia.
Qed.

(** One call of [next] on a rotator in order. *)
Lemma next_outcome (r : WordRotator) (h : Host) :
  rot_ok txt r h ->
  exists w p r1 h1 r' h',
    js_array_index (words r) (currentIndex r) = Some w /\
    next_transition rnd txt r h = Normal (p, r1, h1) /\
    currentIndex r1 = currentIndex r /\
    next rnd txt r h = Normal (r', h') /\
    rot_ok txt r' h' /\ words r' = words r /\
    currentIndex r' = (currentIndex r + 1) mod js_length (words r) /\
    timers h' = timers h /\ timeoutId r' = timeoutId r /\
    continuation_waiting p h'.
Proof.
  intros [Hok Hidx].
  destruct (js_array_index_in_range _ _ Hidx) as (w & Hw).
  destruct (setText_outcome (scrambler r) h w Hok)
    as (t1 & h1 & Hs & Hok1 & _ & _ & _ & _ & _ & Htm & _ & Hcase).
  set (p := length (promises h)) in *.
  destruct (promise_then_host p ScheduleNext h1) as (Hr & Hc & Hd & Ht).
  assert (Hst : exists v, promise_status p h1 = Some v).
  { destruct Hcase as [(_ & _ & _ & Hst & _) | (_ & _ & _ & Hst)]; eauto. }
  destruct Hst as (v & Hst).
  exists w, p, (with_scrambler t1 r), (promise_then p ScheduleNext h1).
  eexists _, _.
  unfold next, next_transition. rewrite Hw, Hs. cbn [bind].
  split; [reflexivity|]. split; [reflexivity|]. split; [reflexivity|].
  split; [reflexivity|].
  cbn [currentIndex words timeoutId with_currentIndex with_scrambler
         scrambler].
  rewrite Z.rem_mod_nonneg by lia.
  split.
  { split.
    - cbn. apply (sched_ok_transfer _ h1); auto.
      + intros q. apply promise_then_status.
      + apply promise_then_calls, Hok1.
    - cbn. apply Z.mod_pos_bound. lia. }
  split; [reflexivity|]. split; [reflexivity|].
  split; [congruence|]. split; [reflexivity|].
  eapply promise_then_waiting; eassumption.
Qed.

Lemma clearTimeout_ok (r : WordRotator) (h : Host) (x : option nat) :
  rot_ok txt r h -> rot_ok txt r (clearTimeout x h).
Proof.
  intros [Hok Hidx]. split; [|assumption].
  destruct x as [id|]; [|assumption].
  apply (sched_ok_transfer _ h); auto. apply Hok.
Qed.

Lemma rot_step_outcome (ev : RotEvent) (r : WordRotator) (h : Host) :
  rot_ok txt r h ->
  exists r' h',
    rot_step rnd txt ev r h = Normal (r', h') /\
    rot_ok txt r' h' /\ words r' = words r.
Proof.
  intros Hrot. destruct ev as [|id|]; cbn [rot_step].
  - destruct Hrot as [Hok Hidx].
    destruct (animation_frame_outcome (scrambler r) h Hok)
      as (t1 & h1 & Hs & Hok1 & _).
    rewrite Hs. cbn [bind].
    destruct (checkpoint_ok (with_scrambler t1 r) h1) as [H1 H2].
    { split; assumption. }
    destruct (checkpoint (with_scrambler t1 r) h1) as [r' h'].
    exists r', h'. auto.
  - destruct (existsb (fun x => Nat.eqb (fst x) id) (timers h)).
    + destruct (next_outcome r (clearTimeout (Some id) h))
        as (w & p & r1 & h1 & r' & h' & _ & _ & _ & Hn & Hrot' & Hw & _).
      { now apply clearTimeout_ok. }
      rewrite Hn. cbn [bind].
      destruct (checkpoint_ok r' h' Hrot') as [H1 H2].
      destruct (checkpoint r' h') as [r2 h2].
      exists r2, h2. cbn in *. repeat split; try apply H1. congruence.
    + exists r, h. auto.
  - unfold stop.
    destruct (checkpoint_ok r (clearTimeout (timeoutId r) h)) as [H1 H2].
    { now apply clearTimeout_ok. }
    destruct (checkpoint r (clearTimeout (timeoutId r) h)) as [r2 h2].
    exists r2, h2. auto.
Qed.

Lemma rot_exec_outcome (es : list RotEvent) :
  forall (r : WordRotator) (h : Host),
    rot_ok txt r h ->
    exists r' h',
      rot_exec rnd txt es r h = Normal (r', h') /\
      rot_ok txt r' h' /\ words r' = words r.
Proof.
  induction es as [|ev es IH]; intros r h Hrot.
  - exists r, h. auto.
  - cbn [rot_exec].
    destruct (rot_step_outcome ev r h Hrot) as (r1 & h1 & Hs & Hrot1 & Hw1).
    rewrite Hs. cbn [bind].
    destruct (IH r1 h1 Hrot1) as (r2 & h2 & He & Hrot2 & Hw2).
    exists r2, h2. split; [assumption|]. split; [assumption | congruence].
Qed.

Lemma rotation_outcome (ws : list jsstring) (o : Options) (e : Element)
      (es : list RotEvent) :
  ws <> [] ->
  exists r h,
    rotation rnd txt ws o e es = Normal (r, h) /\
    rot_ok txt r h /\ words r = ws.
Proof.
  intros Hne. unfold rotation, boot, new_WordRotator, WordRotator_start.
  assert (Hinit : rot_ok txt (initial_rotator ws o) (fresh_host e)).
  { split; [apply initial_ok|]. cbn. unfold js_length.
    destruct ws; [congruence | cbn [length]; lia]. }
  destruct (next_outcome _ _ Hinit)
    as (w & p & r1 & h1 & r' & h' & _ & _ & _ & Hn & Hrot' & Hw & _).
  rewrite Hn. cbn [bind].
  destruct (checkpoint_ok r' h' Hrot') as [H1 H2].
  destruct (checkpoint r' h') as [r2 h2]. cbn [fst snd] in *.
  destruct (rot_exec_outcome es r2 h2 H1) as (r3 & h3 & He & Hrot3 & Hw3).
  exists r3, h3. split; [assumption|]. split; [assumption|].
  rewrite Hw3, H2, Hw. reflexivity.
Qed.

(** C10 (amended).  For a rotator constructed with a non-empty list the
    index starts at 0, inside the list, and in every state the cycle
    reaches it is inside the list.  There [next()] reads the defined word
    [words[currentIndex]], its first statement leaves the index alone, and
    the call returns with the index advanced by one modulo the length of
    the list while the continuation of the transition has not run: no
    timer was set, [timeoutId] is unchanged and the continuation waits on
    the pending promise or in the microtask queue. *)
Theorem rotator_index_stays_in_range
        (ws : list jsstring) (o : Options) (e : Element)
        (es : list RotEvent) (r : WordRotator) (h : Host) :
  ws <> [] ->
  rotation rnd txt ws o e es = Normal (r, h) ->
  0 <= currentIndex (initial_rotator ws o) < js_length ws /\
  words r = ws /\
  0 <= currentIndex r < js_length ws /\
  exists w p r1 h1 r' h',
    js_array_index ws (currentIndex r) = Some w /\
    next_transition rnd txt r h = Normal (p, r1, h1) /\
    currentIndex r1 = currentIndex r /\
    next rnd txt r h = Normal (r', h') /\
    currentIndex r' = (currentIndex r + 1) mod js_length ws /\
    0 <= currentIndex r' < js_length ws /\
    timers h' = timers h /\ timeoutId r' = timeoutId r /\
    continuation_waiting p h'.
Proof.
  intros Hne Hrun.
  destruct (rotation_outcome ws o e es Hne) as (r0 & h0 & Hrun' & Hrot & Hw).
  rewrite Hrun in Hrun'. injection Hrun' as <- <-.
  assert (Hlen : 0 < js_length ws).
  { unfold js_length. destruct ws; [congruence | cbn [length]; lia]. }
  split; [cbn; lia|]. split; [assumption|].
  pose proof Hrot as [_ Hidx]. rewrite Hw in Hidx.
  split; [assumption|].
  destruct (next_outcome r h Hrot)
    as (w & p & r1 & h1 & r' & h' & H1 & H2 & H3 & H4 & H5 & H6 & H7 & H8
        & H9 & H10).
  rewrite Hw in *.
  exists w, p, r1, h1, r', h'. repeat split; auto.
  - rewrite H7. apply Z.mod_pos_bound. assumption.
  - rewrite H7. apply Z.mod_pos_bound. assumption.
Qed.

(** *** initKineticText *)

Variable pInt : option jsstring -> option Z.

Lemma split_from_nonempty (sep : jschar) (s cur : jsstring) :
  split_from sep cur s <> [].
Proof.
  revert cur. induction s as [|c s IH]; intros cur; cbn.
  - discriminate.
  - destruct (N.eqb c sep); [discriminate | apply IH].
Qed.

(** C9 (amended).  [initKineticText] on an element whose word list is
    empty, which happens only when the element has no [data-words]
    attribute, constructs no rotator: the call returns normally and the
    page is as it was. *)
Theorem initKineticText_skips_empty_words (d : Dataset) (h : Host) :
  dataset_words d = [] ->
  data_words d = None /\
  initKineticText rnd txt pInt d h = Normal (None, h).
Proof.
  intros Hd. split.
  - unfold dataset_words, split in Hd.
    destruct (data_words d) as [s|]; [|reflexivity].
    apply map_eq_nil in Hd. now apply split_from_nonempty in Hd.
  - unfold initKineticText. rewrite Hd. reflexivity.
Qed.

(** A rotator constructed with an empty list throws in its first
    [setText]. *)
Lemma new_WordRotator_empty (o : Options) (h : Host) :
  new_WordRotator rnd txt [] o h = Throw TypeError.
Proof. reflexivity. Qed.

End Facts.

(** * Closed instances *)


(** C1, as stated, fails for a call that a later call supersedes.  On the
    element showing [AB], [setText("X")] returns promise 0 and, one refresh
    later, [setText("Y")] is called: from then on, whatever happens, promise
    0 is pending and its resolve function has never been called. *)
Lemma superseded_call_is_never_fulfilled :
  exists t0 h0 p' t1 h1,
    setText sample_random sample_text_of_html (Some [88%N]) new_TextScramble
            (fresh_host sample_element) = Normal (0%nat, t0, h0) /\
    animation_frame sample_random sample_text_of_html t0 h0
    = Normal sample_state /\
    setText sample_random sample_text_of_html (Some [89%N])
            (fst sample_state) (snd sample_state) = Normal (p', t1, h1) /\
    forall es' : list Event,
    exists t2 h2,
      exec sample_random sample_text_of_html es' t1 h1 = Normal (t2, h2) /\
      promise_status 0 h2 = Some (Pending, 0%nat).
Proof.
  assert (Hreach : exec sample_random sample_text_of_html sample_events
                        new_TextScramble (fresh_host sample_element)
                   = Normal (fst sample_state, snd sample_state))
    by (vm_compute; reflexivity).
  destruct (reachable_ok sample_random sample_text_of_html _ _ _ _ Hreach)
    as (Hok & Hres & _).
  destruct (setText_outcome sample_random sample_text_of_html
              (fst sample_state) (snd sample_state) [89%N] Hok)
    as (t1 & h1 & Hs & Hok1 & Hr & _ & _ & Hoth & Hlen & _).
  eexists _, _, _, t1, h1.
  split; [vm_compute; reflexivity|].
  split; [vm_compute; reflexivity|].
  split; [exact Hs|].
  intros es'.
  assert (Hres1 : resolve_ok t1 h1).
  { intros r Hr'. rewrite Hr in Hr'. injection Hr' as <-.
    rewrite Hlen. apply Nat.lt_succ_diag_r. }
  destruct (exec_outcome sample_random sample_text_of_html es' t1 h1 Hok1
              Hres1) as (t2 & h2 & He & _ & _ & _ & Hold).
  exists t2, h2. split; [exact He|].
  assert (Hlt : (0 < length (promises (snd sample_state)))%nat)
    by (vm_compute; constructor).
  rewrite (Hold 0%nat _ Hr Hlt), (Hoth 0%nat Hlt). reflexivity.
Qed.

Lemma completion_fires_exactly_once_witness :
  exec sample_random sample_text_of_html sample_events new_TextScramble
       (fresh_host sample_element) = Normal sample_state /\
  exists p t1 h1,
    setText sample_random sample_text_of_html (Some [89%N])
            (fst sample_state) (snd sample_state) = Normal (p, t1, h1) /\
    (forall es' : list Event,
      exists t2 h2,
        exec sample_random sample_text_of_html es' t1 h1 = Normal (t2, h2) /\
        calls_ok h2) /\
    forall n : nat,
    exists t2 h2,
      run_frames sample_random sample_text_of_html n t1 h1 = Normal (t2, h2) /\
      Forall2 same_plan (queue t1) (queue t2) /\
      if Z.of_nat n <? session_end (queue t1) then
        promise_status p h2 = Some (Pending, 0%nat) /\
        (exists y, rafCallbacks h2 = [y]) /\
        frame t2 = Z.of_nat n + 1 /\
        ~ all_complete (Z.of_nat n) (queue t2)
      else
        promise_status p h2 = Some (Fulfilled, 1%nat) /\
        rafCallbacks h2 = [] /\
        frame t2 = session_end (queue t1) /\
        all_complete (frame t2) (queue t2).
Proof.
  split; [vm_compute; reflexivity|].
  apply (completion_fires_exactly_once sample_random sample_text_of_html
           sample_element sample_events).
  vm_compute; reflexivity.
Defined.

Lemma setText_builds_session_witness :
  exists p t1 h1,
    setText sample_random sample_text_of_html (Some [88%N; 89%N; 90%N])
            new_TextScramble (fresh_host sample_element)
    = Normal (p, t1, h1) /\
    length (queue t1) = 3%nat /\
    exists task,
      nth_error (queue t1) 2 = Some task /\ from task = [] /\
      to task = [90%N].
Proof.
  destruct (setText_builds_session sample_random sample_text_of_html
              new_TextScramble (fresh_host sample_element)
              [88%N; 89%N; 90%N])
    as (p & t1 & h1 & Hs & Hlen & Htasks).
  exists p, t1, h1. split; [exact Hs|]. split; [exact Hlen|].
  apply (Htasks 2%nat). cbn. lia.
Defined.

Lemma setText_supersedes_session_witness :
  exec sample_random sample_text_of_html sample_events new_TextScramble
       (fresh_host sample_element) = Normal sample_state /\
  In 2%nat (rafCallbacks (snd sample_state)) /\
  resolve (fst sample_state) = Some 0%nat /\
  exists p' t1 h1,
    setText sample_random sample_text_of_html (Some [89%N])
            (fst sample_state) (snd sample_state) = Normal (p', t1, h1) /\
    p' <> 0%nat /\ ~ In 2%nat (rafCallbacks h1) /\
    forall es' : list Event,
    exists t2 h2,
      exec sample_random sample_text_of_html es' t1 h1 = Normal (t2, h2) /\
      promise_status 0 h2 = Some (Pending, 0%nat) /\
      (length (rafCallbacks h2) <= 1)%nat.
Proof.
  assert (Hreach : exec sample_random sample_text_of_html sample_events
                        new_TextScramble (fresh_host sample_element)
                   = Normal (fst sample_state, snd sample_state))
    by (vm_compute; reflexivity).
  assert (Hin : In 2%nat (rafCallbacks (snd sample_state)))
    by (left; reflexivity).
  assert (Hp : resolve (fst sample_state) = Some 0%nat) by reflexivity.
  split; [exact Hreach|]. split; [exact Hin|]. split; [exact Hp|].
  destruct (setText_supersedes_session sample_random sample_text_of_html
              sample_element sample_events (fst sample_state)
              (snd sample_state) 2%nat 0%nat [89%N] Hreach Hin Hp)
    as (_ & _ & _ & _ & p' & t1 & h1 & Hs & Hne & _ & _ & _ & _ & Hx & _
        & Hlater).
  exists p', t1, h1. auto.
Defined.





(** C9, as stated, fails: constructing a rotator with an empty list throws a
    [TypeError] ([words[0]] is [undefined] and [setText] reads its
    [length]). *)
Lemma empty_word_list_throws :
  new_WordRotator sample_random sample_text_of_html [] no_options
                  (fresh_host sample_element) = Throw TypeError.
Proof. reflexivity. Qed.

Lemma initKineticText_skips_empty_words_witness :
  dataset_words no_dataset = [] /\
  data_words no_dataset = None /\
  initKineticText sample_random sample_text_of_html sample_parseInt
                  no_dataset (fresh_host sample_element)
  = Normal (None, fresh_host sample_element).
Proof.
  split; [reflexivity|].
  apply (initKineticText_skips_empty_words sample_random sample_text_of_html
           sample_parseInt no_dataset (fresh_host sample_element)).
  reflexivity.
Defined.

(** C10, as stated, fails.  With two empty words on an empty element the
    session is empty, and with the words [A], [B] and every draw 0 each task
    has [end = 0]: either way the update inside [setText] resolves the
    promise, so when the first statement of [next] is over the promise is
    fulfilled and the index is still 0. *)
Lemma promise_resolved_before_index_advances :
  (exists p r1 h1,
      next_transition sample_random sample_text_of_html
                      (initial_rotator [[]; []] no_options)
                      (fresh_host empty_element) = Normal (p, r1, h1) /\
      currentIndex r1 = 0 /\
      promise_status p h1 = Some (Fulfilled, 1%nat)) /\
  (exists p r1 h1,
      next_transition zero_random sample_text_of_html
                      (initial_rotator sample_words no_options)
                      (fresh_host empty_element) = Normal (p, r1, h1) /\
      currentIndex r1 = 0 /\
      promise_status p h1 = Some (Fulfilled, 1%nat)).
Proof.
  split; eexists _, _, _; (split; [vm_compute; reflexivity|]);
    split; reflexivity.
Qed.

Lemma rotator_index_stays_in_range_witness :
  sample_words <> [] /\
  rotation sample_random sample_text_of_html sample_words no_options
           empty_element [Tick] = Normal sample_rotation /\
  words (fst sample_rotation) = sample_words /\
  0 <= currentIndex (fst sample_rotation) < js_length sample_words /\
  exists r' h',
    next sample_random sample_text_of_html (fst sample_rotation)
         (snd sample_rotation) = Normal (r', h') /\
    currentIndex r' =
    (currentIndex (fst sample_rotation) + 1) mod js_length sample_words /\
    timers h' = timers (snd sample_rotation) /\
    timeoutId r' = timeoutId (fst sample_rotation).
Proof.
  assert (Hne : sample_words <> []) by discriminate.
  assert (Hrun : rotation sample_random sample_text_of_html sample_words
                          no_options empty_element [Tick]
                 = Normal (fst sample_rotation, snd sample_rotation))
    by (vm_compute; reflexivity).
  split; [exact Hne|]. split; [exact Hrun|].
  destruct (rotator_index_stays_in_range sample_random sample_text_of_html
              sample_words no_options empty_element [Tick]
              (fst sample_rotation) (snd sample_rotation) Hne Hrun)
    as (_ & Hw & Hidx & w & p & r1 & h1 & r' & h' & _ & _ & _ & Hn & Hi & _
        & Ht & Hid & _).
  split; [exact Hw|]. split; [exact Hidx|].
  exists r', h'. auto.
Defined.

(** C4.  A rotator over [A], [B] on an empty element, every draw one half
    (tasks run from frame 20 to frame 40).  After construction the first
    transition is in flight and no timeout exists, so [stop()] changes
    nothing.  Forty refreshes later the transition has rendered [A] and its
    continuation has set timeout 1; when it expires a second transition, to
    [B], is under way.  Called during the delay instead, [stop()] does
    cancel the timeout. *)
Theorem stop_in_flight_does_not_end_rotation :
  exists r0 h0 r1 h1 r2 h2 r3 h3,
    boot sample_random sample_text_of_html sample_words no_options
         empty_element = Normal (r0, h0) /\
    rafCallbacks h0 = [1%nat] /\ timeoutId r0 = None /\ timers h0 = [] /\
    rot_step sample_random sample_text_of_html CallStop r0 h0
    = Normal (r0, h0) /\
    rot_exec sample_random sample_text_of_html (repeat Tick 40) r0 h0
    = Normal (r1, h1) /\
    innerHTML (dom h1) = [65%N] /\
    promise_status 0 h1 = Some (Fulfilled, 1%nat) /\
    timers h1 = [(1%nat, 3000)] /\
    rot_step sample_random sample_text_of_html (Timeout 1) r1 h1
    = Normal (r2, h2) /\
    length (promises h2) = 2%nat /\
    rafCallbacks h2 = [41%nat] /\
    map to (queue (scrambler r2)) = [[66%N]] /\
    rot_step sample_random sample_text_of_html CallStop r1 h1
    = Normal (r3, h3) /\
    timers h3 = [] /\
    rot_step sample_random sample_text_of_html (Timeout 1) r3 h3
    = Normal (r3, h3).
Proof.
  eexists _, _, _, _, _, _, _, _.
  split; [vm_compute; reflexivity|].
  do 3 (split; [reflexivity|]).
  split; [vm_compute; reflexivity|].
  split; [vm_compute; reflexivity|].
  do 3 (split; [reflexivity|]).
  split; [vm_compute; reflexivity|].
  do 3 (split; [reflexivity|]).
  split; [vm_compute; reflexivity|].
  split; [reflexivity|].
  vm_compute; reflexivity.
Qed.

(** * The rotation cycle as a whole *)

Section Cycle.

Variable rnd : nat -> Q.
Variable txt : jsstring -> jsstring.

Lemma checkpoint_empty (r : WordRotator) (h : Host) :
  microtasks h = [] -> checkpoint r h = (r, with_microtasks [] h).
Proof. intros H. unfold checkpoint. rewrite H. reflexivity. Qed.

Lemma checkpoint_scheduled (r : WordRotator) (h : Host) :
  microtasks h = [ScheduleNext] ->
  checkpoint r h =
  (with_timeoutId (Some (S (timerCounter h))) r,
   with_timers (timers h ++ [(S (timerCounter h), interval r)])
     (S (timerCounter h)) (with_microtasks [] h)).
Proof. intros H. unfold checkpoint. rewrite H. reflexivity. Qed.

(** What [update] does to the microtask queue and to the promise it may
    resolve. *)
Lemma update_microtasks (t t' : TextScramble) (h h' : Host) (p : nat)
      (pr : Promise) :
  update rnd txt t h = Normal (t', h') ->
  resolve t = Some p ->
  nth_error (promises h) p = Some pr -> pstate pr = Pending ->
  timerCounter h' = timerCounter h /\
  ((all_complete (frame t) (queue t) /\
    microtasks h' = microtasks h ++ reactions pr /\
    exists pr', nth_error (promises h') p = Some pr' /\ reactions pr' = [])
   \/
   (~ all_complete (frame t) (queue t) /\
    microtasks h' = microtasks h /\ promises h' = promises h)).
Proof.
  intros Hu Hp Hpr Hs.
  destruct (all_complete_dec (frame t) (queue t)) as [Hall|Hnot].
  - rewrite (update_complete rnd txt t h p Hall Hp) in Hu.
    injection Hu as _ <-.
    unfold resolve_promise. cbn [promises set_innerHTML with_dom].
    rewrite Hpr, Hs. cbn. split; [reflexivity|]. left.
    split; [assumption|]. split; [reflexivity|].
    rewrite nth_error_list_set_eq by (apply nth_error_Some; congruence).
    eexists. split; reflexivity.
  - destruct (update_running rnd txt t h Hnot) as (o & q' & k' & _ & Heq).
    rewrite Heq in Hu. injection Hu as _ <-. cbn.
    split; [reflexivity|]. right. auto.
Qed.

Lemma prepared_host_promise (t : TextScramble) (h : Host) (s : jsstring) :
  nth_error (promises (prepared_host s t h)) (length (promises h)) =
  Some {| pstate := Pending; reactions := []; resolveCalls := 0 |} /\
  microtasks (prepared_host s t h) = microtasks h /\
  timerCounter (prepared_host s t h) = timerCounter h.
Proof.
  unfold prepared_host. destruct (frameRequest t); cbn;
    rewrite nth_error_app2 by lia; rewrite Nat.sub_diag; auto.
Qed.

(** The promise [setText] returns is the next of the table and has no
    continuation yet; the call leaves timers and microtasks alone. *)
Lemma setText_fresh (t t1 : TextScramble) (h h1 : Host) (s : jsstring)
      (p : nat) :
  setText rnd txt (Some s) t h = Normal (p, t1, h1) ->
  p = length (promises h) /\
  timerCounter h1 = timerCounter h /\
  microtasks h1 = microtasks h /\
  exists pr, nth_error (promises h1) p = Some pr /\ reactions pr = [].
Proof.
  rewrite setText_unfold.
  destruct (update rnd txt (prepared_scrambler rnd s t h)
              (prepared_host s t h)) as [[t' h']|err] eqn:Hu; [|discriminate].
  cbn [bind]. intros [= <- <- <-].
  destruct (prepared_host_promise t h s) as (Hpr & Hm & Htc).
  destruct (update_microtasks _ _ _ _ _ _ Hu eq_refl Hpr eq_refl)
    as (Htc' & [(_ & Hm' & pr' & Hpr' & Hre) | (_ & Hm' & Hps)]).
  - split; [reflexivity|]. split; [congruence|].
    split; [cbn in Hm'; rewrite app_nil_r in Hm'; congruence|].
    eauto.
  - split; [reflexivity|]. split; [congruence|]. split; [congruence|].
    rewrite Hps. eauto.
Qed.

(** A transition started with nothing scheduled, up to the end of the
    microtask checkpoint: [next()] from a state with no frame callback, no
    timeout and no microtask leaves the cycle in order, one transition
    further, and alive. *)
Lemma transition_start (r : WordRotator) (h : Host) :
  sched_ok txt (scrambler r) h ->
  rafCallbacks h = [] -> microtasks h = [] -> timers h = [] ->
  0 < js_length (words r) ->
  currentIndex r = Z.of_nat (length (promises h)) mod js_length (words r) ->
  exists r1 h1 r' h',
    next rnd txt r h = Normal (r1, h1) /\
    checkpoint r1 h1 = (r', h') /\
    cycle_ok txt r' h' /\ alive h' /\
    words r' = words r /\ interval r' = interval r /\
    length (promises h') = S (length (promises h)).
Proof.
  intros Hok Hraf Hmt Htm Hlen Hidx.
  assert (Hrange : 0 <= currentIndex r < js_length (words r)).
  { rewrite Hidx. apply Z.mod_pos_bound. assumption. }
  destruct (js_array_index_in_range _ _ Hrange) as (w & Hw).
  destruct (setText_outcome rnd txt (scrambler r) h w Hok)
    as (t1 & h1 & Hs & Hok1 & Hr & _ & Hplan & _ & Hlen1 & Htm1 & _ & Hcase).
  destruct (setText_fresh _ _ _ _ _ _ Hs) as (_ & Htc & Hmt1 & pr & Hpr & Hre).
  set (p := length (promises h)) in *.
  pose proof (same_plan_map_to _ _ Hplan) as Hto.
  pose proof (session_queue_target rnd (textContent (dom h)) w (drawn h))
    as Htarget.
  assert (Htgt : concat (map to (queue t1)) = w) by congruence.
  destruct (promise_then_host p ScheduleNext h1) as (Hpr1 & Hpc1 & Hpd1 & Hpt1).
  assert (Hok2 : sched_ok txt t1 (promise_then p ScheduleNext h1)).
  { apply (sched_ok_transfer txt t1 h1); auto.
    - intros q. apply promise_then_status.
    - apply promise_then_calls, Hok1. }
  assert (Hlen2 : length (promises (promise_then p ScheduleNext h1)) = S p).
  { rewrite <- Hlen1. unfold promise_then. rewrite Hpr.
    destruct (pstate pr); cbn; [apply length_list_set | reflexivity]. }
  assert (Hword : nth_word (words r) (S p) = Some w).
  { unfold nth_word. replace (S p - 1)%nat with p by lia.
    rewrite <- Hidx. exact Hw. }
  assert (Hnext : Z.rem (currentIndex r + 1) (js_length (words r))
                  = Z.of_nat (S p) mod js_length (words r)).
  { rewrite Z.rem_mod_nonneg by lia. rewrite Hidx.
    rewrite Z.add_mod_idemp_l by lia. f_equal. lia. }
  unfold next, next_transition. rewrite Hw, Hs. cbn [bind].
  cbn [currentIndex words with_scrambler].
  eexists _, _. 
  destruct Hcase as [(_ & _ & Hraf1 & Hst & Hdom) | (_ & _ & Hraf1 & Hst)].
  - (* finished inside setText: the continuation is queued at once *)
    assert (Hful : pstate pr = Fulfilled).
    { unfold promise_status in Hst. rewrite Hpr in Hst. congruence. }
    assert (Hmt2 : microtasks (promise_then p ScheduleNext h1)
                   = [ScheduleNext]).
    { unfold promise_then. rewrite Hpr, Hful. cbn. now rewrite Hmt1, Hmt. }
    assert (Hps2 : promises (promise_then p ScheduleNext h1) = promises h1).
    { unfold promise_then. rewrite Hpr, Hful. reflexivity. }
    eexists _, _. split; [reflexivity|].
    split; [apply checkpoint_scheduled; exact Hmt2|].
    split.
    { unfold cycle_ok.
      cbn [promises rafCallbacks timers microtasks dom with_timers
             with_microtasks scrambler words currentIndex interval timeoutId
             with_timeoutId with_currentIndex with_scrambler].
      rewrite Hlen2. replace (S p - 1)%nat with p by lia.
      rewrite Hpr1, Hraf1, Hpd1, Hpt1, Htm1, Htm, Htgt.
      split.
      { apply (sched_ok_transfer txt t1 (promise_then p ScheduleNext h1));
          auto. apply Hok2. }
      split; [reflexivity|]. split; [lia|]. split; [assumption|].
      split; [assumption|]. split; [assumption|]. split; [assumption|].
      split; [congruence|]. split.
      - unfold promise_status. cbn [promises with_timers with_microtasks].
        rewrite Hps2. exact Hst.
      - right. eexists. split; reflexivity. }
    split.
    { right. cbn. rewrite Hpt1, Htm1, Htm. discriminate. }
    split; [reflexivity|]. split; [reflexivity|].
    cbn. exact Hlen2.
  - (* running: the continuation waits on the promise *)
    assert (Hpen : pstate pr = Pending).
    { unfold promise_status in Hst. rewrite Hpr in Hst. congruence. }
    assert (Hmt2 : microtasks (promise_then p ScheduleNext h1) = []).
    { unfold promise_then. rewrite Hpr, Hpen. cbn. now rewrite Hmt1. }
    eexists _, _. split; [reflexivity|].
    split; [apply checkpoint_empty; exact Hmt2|].
    split.
    { unfold cycle_ok.
      cbn [promises rafCallbacks timers microtasks dom with_timers
             with_microtasks scrambler words currentIndex interval timeoutId
             with_timeoutId with_currentIndex with_scrambler].
      rewrite Hlen2. replace (S p - 1)%nat with p by lia.
      rewrite Hpr1, Hraf1, Hpt1, Htm1, Htm, Htgt.
      split.
      { apply (sched_ok_transfer txt t1 (promise_then p ScheduleNext h1));
          auto. apply Hok2. }
      split; [reflexivity|]. split; [lia|]. split; [assumption|].
      split; [assumption|]. split; [assumption|]. split; [assumption|].
      split; [reflexivity|].
      unfold promise_then. rewrite Hpr, Hpen. cbn.
      rewrite nth_error_list_set_eq by (apply nth_error_Some; congruence).
      eexists. split; [reflexivity|]. cbn. now rewrite Hre. }
    split.
    { left. cbn. rewrite Hpr1, Hraf1. discriminate. }
    split; [reflexivity|]. split; [reflexivity|].
    cbn. exact Hlen2.
Qed.

Lemma clearTimeout_host (x : option nat) (h : Host) :
  rafCallbacks (clearTimeout x h) = rafCallbacks h /\
  rafCounter (clearTimeout x h) = rafCounter h /\
  dom (clearTimeout x h) = dom h /\
  promises (clearTimeout x h) = promises h /\
  microtasks (clearTimeout x h) = microtasks h.
Proof. destruct x; cbn; auto. Qed.

Lemma sched_ok_same_frame (t : TextScramble) (h h' : Host) :
  rafCallbacks h' = rafCallbacks h -> rafCounter h' = rafCounter h ->
  dom h' = dom h -> promises h' = promises h ->
  sched_ok txt t h -> sched_ok txt t h'.
Proof.
  intros Hr Hc Hd Hp Hok. apply (sched_ok_transfer txt t h); auto.
  - intros q. unfold promise_status. now rewrite Hp.
  - unfold calls_ok. rewrite Hp. apply Hok.
Qed.

(** The cycle invariant passes to every host that differs in timers and
    microtasks only, once these are given. *)
Lemma cycle_ok_same_frame (r : WordRotator) (h h' : Host) :
  rafCallbacks h' = rafCallbacks h -> rafCounter h' = rafCounter h ->
  dom h' = dom h -> promises h' = promises h ->
  microtasks h' = [] ->
  (timers h' = timers h \/ timers h' = []) ->
  cycle_ok txt r h -> cycle_ok txt r h'.
Proof.
  intros Hr Hc Hd Hp Hm Ht (Hok & _ & Hn & Hres & Hlen & Hidx & Hw & Hcase).
  unfold cycle_ok. rewrite Hp, Hr, Hd.
  split; [eapply sched_ok_same_frame; eassumption|].
  split; [assumption|]. split; [assumption|]. split; [assumption|].
  split; [assumption|]. split; [assumption|]. split; [assumption|].
  destruct (rafCallbacks h) as [|x rest].
  - destruct Hcase as (H1 & H2 & H3). split; [assumption|].
    split; [unfold promise_status in *; now rewrite Hp|].
    destruct Ht as [->| ->]; auto.
  - destruct Hcase as (H1 & H2). split; [|assumption].
    destruct Ht as [->| ->]; auto.
Qed.

(** One event keeps the cycle in order.  Only [stop()] can leave it with
    nothing scheduled, and [stop()] always leaves it without a timeout. *)
Lemma rot_step_cycle (ev : RotEvent) (r : WordRotator) (h : Host) :
  cycle_ok txt r h ->
  exists r' h',
    rot_step rnd txt ev r h = Normal (r', h') /\
    cycle_ok txt r' h' /\
    words r' = words r /\ interval r' = interval r /\
    (ev <> CallStop -> alive h -> alive h') /\
    (ev = CallStop -> timers h' = [] /\ rafCallbacks h' = rafCallbacks h).
Proof.
  intros Hcyc. pose proof Hcyc as (Hok & Hmt & Hn & Hres & Hlen & Hidx & Hw
                                   & Hcase).
  destruct ev as [|id|]; cbn [rot_step].
  - (* a display refresh *)
    destruct (rafCallbacks h) as [|x rest] eqn:Hraf.
    + unfold animation_frame. rewrite Hraf. cbn [run_callbacks bind].
      rewrite checkpoint_empty by assumption.
      eexists _, _. split; [reflexivity|].
      split.
      { apply (cycle_ok_same_frame _ h); auto. }
      split; [reflexivity|]. split; [reflexivity|].
      split; [intros _ Ha; exact Ha | discriminate].
    + destruct (animation_frame_cases rnd txt (scrambler r) h Hok)
        as [[Hraf' _] | (x' & p & _ & Hp & Hst & Heq)]; [congruence|].
      assert (p = (length (promises h) - 1)%nat) by congruence. subst p.
      destruct Hcase as (Htm & pr & Hpr & Hre).
      assert (Hpen : pstate pr = Pending).
      { unfold promise_status in Hst. rewrite Hpr in Hst. congruence. }
      destruct (update_outcome rnd txt (scrambler r)
                  (with_raf [] (rafCounter h) h) _ eq_refl Hp Hst)
        as (t1 & h1 & Hu & Hok1 & Hr1 & _ & Hplan & _ & Hlen1 & Htm1 & Hout);
        [apply Hok|].
      destruct (update_microtasks _ _ _ _ _ _ Hu Hp Hpr Hpen)
        as (Htc & Hmic).
      rewrite Heq, Hu. cbn [bind].
      cbn [promises timers microtasks with_raf] in *.
      pose proof (same_plan_map_to _ _ Hplan) as Hto.
      destruct Hout as [(Hall & -> & Hraf1 & Hst1 & Hdom1)
                       | (Hnot & _ & Hraf1 & Hst1)].
      * destruct Hmic as [(_ & Hm1 & _) | (Hnot & _)]; [|contradiction].
        rewrite Hmt, Hre in Hm1. cbn in Hm1.
        rewrite (checkpoint_scheduled _ _ Hm1).
        eexists _, _. split; [reflexivity|].
        split.
        { unfold cycle_ok.
          cbn [promises rafCallbacks timers microtasks dom with_timers
                 with_microtasks scrambler words currentIndex interval
                 timeoutId with_timeoutId with_scrambler].
          rewrite Hlen1, Hraf1, Htm1, Htm.
          split.
          { apply (sched_ok_same_frame _ h1); auto. }
          split; [reflexivity|]. split; [assumption|]. split; [assumption|].
          split; [assumption|]. split; [assumption|]. split; [assumption|].
          split; [assumption|]. split; [exact Hst1|].
          right. eexists. split; reflexivity. }
        split; [reflexivity|]. split; [reflexivity|].
        split; [|discriminate].
        intros _ _. right. cbn. rewrite Htm1, Htm. discriminate.
      * destruct Hmic as [(Hall & _) | (_ & Hm1 & Hps1)]; [contradiction|].
        rewrite Hmt in Hm1. rewrite (checkpoint_empty _ _ Hm1).
        eexists _, _. split; [reflexivity|].
        split.
        { unfold cycle_ok.
          cbn [promises rafCallbacks timers microtasks dom with_timers
                 with_microtasks scrambler words currentIndex interval
                 timeoutId with_timeoutId with_scrambler].
          rewrite Hps1, Hraf1, Htm1, Htm, Hto.
          split.
          { apply (sched_ok_same_frame _ h1); auto. }
          split; [reflexivity|]. split; [assumption|]. split; [assumption|].
          split; [assumption|]. split; [assumption|]. split; [assumption|].
          split; [reflexivity|]. eauto. }
        split; [reflexivity|]. split; [reflexivity|].
        split; [|discriminate].
        intros _ _. left. cbn. rewrite Hraf1. discriminate.
  - (* a timeout expires *)
    destruct (existsb (fun x => Nat.eqb (fst x) id) (timers h)) eqn:Hex.
    + destruct (rafCallbacks h) as [|x rest] eqn:Hraf.
      2:{ destruct Hcase as (Htm & _). rewrite Htm in Hex. discriminate. }
      destruct Hcase as (_ & _ & [Htm | (id0 & Htm & Hid)]);
        [rewrite Htm in Hex; discriminate|].
      destruct (clearTimeout_host (Some id) h) as (Hc1 & Hc2 & Hc3 & Hc4 & Hc5).
      assert (Hcleared : timers (clearTimeout (Some id) h) = []).
      { cbn. rewrite Htm in *. cbn in *.
        destruct (Nat.eqb id0 id); [reflexivity | discriminate]. }
      assert (Hok' : sched_ok txt (scrambler r) (clearTimeout (Some id) h))
        by (eapply sched_ok_same_frame; eauto).
      assert (Hraf' : rafCallbacks (clearTimeout (Some id) h) = [])
        by congruence.
      assert (Hmt' : microtasks (clearTimeout (Some id) h) = [])
        by congruence.
      assert (Hidx' : currentIndex r
                      = Z.of_nat (length (promises (clearTimeout (Some id) h)))
                        mod js_length (words r))
        by (rewrite Hc4; assumption).
      destruct (transition_start r (clearTimeout (Some id) h) Hok' Hraf' Hmt'
                  Hcleared Hlen Hidx')
        as (r1 & h1 & r' & h' & Hnext & Hchk & Hcyc' & Halive & Hws & Hint
            & _).
      rewrite Hnext. cbn [bind]. rewrite Hchk.
      exists r', h'. split; [reflexivity|]. split; [assumption|].
      split; [assumption|]. split; [assumption|].
      split; [auto | discriminate].
    + exists r, h. split; [reflexivity|]. split; [assumption|].
      split; [reflexivity|]. split; [reflexivity|].
      split; [auto | discriminate].
  - (* stop() *)
    unfold stop.
    destruct (clearTimeout_host (timeoutId r) h) as (Hc1 & Hc2 & Hc3 & Hc4 & Hc5).
    rewrite checkpoint_empty by congruence.
    assert (Hcleared : timers (clearTimeout (timeoutId r) h) = []).
    { destruct (rafCallbacks h) as [|x rest].
      - destruct Hcase as (_ & _ & [Htm | (id0 & Htm & Hid)]).
        + destruct (timeoutId r); cbn; rewrite Htm; reflexivity.
        + rewrite Hid. cbn. rewrite Htm. cbn. rewrite Nat.eqb_refl.
          reflexivity.
      - destruct Hcase as (Htm & _).
        destruct (timeoutId r); cbn; rewrite Htm; reflexivity. }
    eexists _, _. split; [reflexivity|].
    split.
    { apply (cycle_ok_same_frame _ h); auto. }
    split; [reflexivity|]. split; [reflexivity|].
    split; [congruence|]. intros _. split; [exact Hcleared | exact Hc1].
Qed.

Lemma rot_exec_cycle (es : list RotEvent) :
  forall (r : WordRotator) (h : Host),
    cycle_ok txt r h ->
    exists r' h',
      rot_exec rnd txt es r h = Normal (r', h') /\
      cycle_ok txt r' h' /\
      words r' = words r /\ interval r' = interval r /\
      (~ In CallStop es -> alive h -> alive h').
Proof.
  induction es as [|ev es IH]; intros r h Hcyc.
  - exists r, h. split; [reflexivity|]. auto.
  - cbn [rot_exec].
    destruct (rot_step_cycle ev r h Hcyc)
      as (r1 & h1 & Hs & Hcyc1 & Hw1 & Hi1 & Ha1 & _).
    rewrite Hs. cbn [bind].
    destruct (IH r1 h1 Hcyc1) as (r2 & h2 & He & Hcyc2 & Hw2 & Hi2 & Ha2).
    exists r2, h2. split; [assumption|]. split; [assumption|].
    split; [congruence|]. split; [congruence|].
    intros Hno Ha. apply Ha2.
    + intros Hin. apply Hno. right. assumption.
    + apply Ha1; [|assumption]. intros ->. apply Hno. left. reflexivity.
Qed.

Lemma rotation_cycle (ws : list jsstring) (o : Options) (e : Element)
      (es : list RotEvent) :
  ws <> [] ->
  exists r h,
    rotation rnd txt ws o e es = Normal (r, h) /\
    cycle_ok txt r h /\
    words r = ws /\ interval r = interval (initial_rotator ws o) /\
    (~ In CallStop es -> alive h).
Proof.
  intros Hne. unfold rotation, boot, new_WordRotator, WordRotator_start.
  assert (Hlen : 0 < js_length (words (initial_rotator ws o))).
  { cbn. unfold js_length. destruct ws; [congruence | cbn [length]; lia]. }
  destruct (transition_start (initial_rotator ws o) (fresh_host e))
    as (r1 & h1 & r' & h' & Hnext & Hchk & Hcyc & Halive & Hws & Hint & _);
    try reflexivity; try assumption.
  { apply initial_ok. }
  rewrite Hnext. cbn [bind]. rewrite Hchk.
  destruct (rot_exec_cycle es r' h' Hcyc)
    as (r2 & h2 & He & Hcyc2 & Hw2 & Hi2 & Ha2).
  exists r2, h2. split; [assumption|]. split; [assumption|].
  split; [rewrite Hw2, Hws; reflexivity|].
  split; [rewrite Hi2, Hint; reflexivity|].
  intros Hno. apply Ha2; assumption.
Qed.

(** With nothing scheduled, no event changes anything. *)
Lemma nothing_scheduled_is_final (ev : RotEvent) (r : WordRotator)
      (h : Host) :
  rafCallbacks h = [] -> timers h = [] -> microtasks h = [] ->
  rot_step rnd txt ev r h = Normal (r, h).
Proof.
  intros Hraf Htm Hmt. destruct r, h. cbn in *. subst.
  destruct ev as [|id|]; cbn.
  - reflexivity.
  - reflexivity.
  - unfold stop, clearTimeout. cbn. destruct timeoutId0; reflexivity.
Qed.


(** X4.  A rotation never has a transition in flight and a timeout pending
    together, and never two of either: in every state it reaches at most
    one frame callback and at most one timeout are pending; a pending
    timeout is the one [timeoutId] names, is set for the interval given to
    the constructor (3000 by default) and coexists with no frame callback;
    and no microtask is left over between two events. *)
Theorem rotation_schedules_one_step
        (ws : list jsstring) (o : Options) (e : Element)
        (es : list RotEvent) (r : WordRotator) (h : Host) :
  ws <> [] ->
  rotation rnd txt ws o e es = Normal (r, h) ->
  (length (rafCallbacks h) <= 1)%nat /\
  (length (timers h) <= 1)%nat /\
  microtasks h = [] /\
  (forall id d,
      In (id, d) (timers h) ->
      rafCallbacks h = [] /\ timeoutId r = Some id /\
      d = match opt_interval o with Some i => i | None => 3000 end).
Proof.
  intros Hne Hrun.
  destruct (rotation_cycle ws o e es Hne)
    as (r0 & h0 & Hrun' & Hcyc & _ & Hint & _).
  rewrite Hrun in Hrun'. injection Hrun' as <- <-.
  destruct Hcyc as ([Hraf _] & Hmt & _ & _ & _ & _ & _ & Hcase).
  cbn in Hint. rewrite <- Hint.
  destruct (rafCallbacks h) as [|x rest].
  - destruct Hcase as (_ & _ & [Htm | (id0 & Htm & Hid)]); rewrite Htm.
    + split; [cbn; lia|]. split; [cbn; lia|]. split; [assumption|].
      intros i d [].
    + split; [cbn; lia|]. split; [cbn; lia|]. split; [assumption|].
      intros i d [[= <- <-]|[]]. auto.
  - destruct Hraf as (-> & _). destruct Hcase as (Htm & _). rewrite Htm.
    split; [cbn; lia|]. split; [cbn; lia|]. split; [assumption|].
    intros i d [].
Qed.

(** X5.  Unless [stop()] is called, a rotation never comes to rest: after
    any refreshes and timer expiries a frame callback or a timeout is
    pending. *)
Theorem rotation_runs_until_stopped
        (ws : list jsstring) (o : Options) (e : Element)
        (es : list RotEvent) (r : WordRotator) (h : Host) :
  ws <> [] ->
  ~ In CallStop es ->
  rotation rnd txt ws o e es = Normal (r, h) ->
  rafCallbacks h <> [] \/ timers h <> [].
Proof.
  intros Hne Hno Hrun.
  destruct (rotation_cycle ws o e es Hne)
    as (r0 & h0 & Hrun' & _ & _ & _ & Halive).
  rewrite Hrun in Hrun'. injection Hrun' as <- <-.
  apply Halive. assumption.
Qed.

(** X6.  [stop()] called during the delay between two transitions, that is
    while a timeout is pending, ends the rotation for good: it cancels the
    timeout and leaves the element alone, nothing is scheduled any more,
    and whatever refreshes, timer expiries or further [stop()] calls
    follow, the state stays as it is. *)
Theorem stop_during_delay_ends_rotation
        (ws : list jsstring) (o : Options) (e : Element)
        (es : list RotEvent) (r : WordRotator) (h : Host) :
  ws <> [] ->
  rotation rnd txt ws o e es = Normal (r, h) ->
  timers h <> [] ->
  exists r' h',
    rot_step rnd txt CallStop r h = Normal (r', h') /\
    timers h' = [] /\ rafCallbacks h' = [] /\ dom h' = dom h /\
    forall es' : list RotEvent,
      rot_exec rnd txt es' r' h' = Normal (r', h').
Proof.
  intros Hne Hrun Htm.
  destruct (rotation_cycle ws o e es Hne) as (r0 & h0 & Hrun' & Hcyc & _).
  rewrite Hrun in Hrun'. injection Hrun' as <- <-.
  assert (Hraf : rafCallbacks h = []).
  { destruct Hcyc as (_ & _ & _ & _ & _ & _ & _ & Hcase).
    destruct (rafCallbacks h); [reflexivity|].
    destruct Hcase as (H0 & _). contradiction. }
  destruct (rot_step_cycle CallStop r h Hcyc)
    as (r' & h' & Hs & Hcyc' & _ & _ & _ & Hstop).
  destruct (Hstop eq_refl) as (Htm' & Hraf').
  exists r', h'. split; [assumption|]. split; [assumption|].
  split; [congruence|].
  split.
  { cbn [rot_step] in Hs. unfold stop in Hs.
    destruct Hcyc as (_ & Hmt & _).
    rewrite checkpoint_empty in Hs
      by (destruct (timeoutId r); cbn; assumption).
    injection Hs as _ <-. destruct (timeoutId r); reflexivity. }
  assert (Hmt' : microtasks h' = []) by apply Hcyc'.
  intros es'. induction es' as [|ev es' IH]; [reflexivity|].
  cbn [rot_exec].
  rewrite nothing_scheduled_is_final by congruence. cbn [bind]. exact IH.
Qed.

End Cycle.

(** * Trimming and splitting *)

Lemma trim_start_head (s : jsstring) (c : jschar) (r : jsstring) :
  trim_start s = c :: r -> is_space c = false.
Proof.
  induction s as [|a s IH]; cbn; [discriminate|].
  destruct (is_space a) eqn:E; [assumption|]. intros [= <- _]. assumption.
Qed.

Lemma trim_start_keeps (s : jsstring) :
  (forall c r, s = c :: r -> is_space c = false) -> trim_start s = s.
Proof.
  destruct s as [|a s]; [reflexivity|]. intros H. cbn.
  now rewrite (H a s eq_refl).
Qed.

Lemma trim_start_suffix (s : jsstring) :
  exists pre, s = pre ++ trim_start s.
Proof.
  induction s as [|a s [pre IH]]; [exists []; reflexivity|]. cbn.
  destruct (is_space a).
  - exists (a :: pre). cbn. now rewrite <- IH.
  - exists []. reflexivity.
Qed.

(** A trimmed string neither begins nor ends with white space. *)
Lemma trim_first (s : jsstring) (c : jschar) (r : jsstring) :
  trim s = c :: r -> is_space c = false.
Proof.
  unfold trim. intros H.
  destruct (trim_start_suffix (rev (trim_start s))) as [pre Hpre].
  apply (f_equal (@rev jschar)) in Hpre.
  rewrite rev_involutive, rev_app_distr, H in Hpre. cbn in Hpre.
  exact (trim_start_head _ _ _ Hpre).
Qed.

Lemma trim_last (s : jsstring) (c : jschar) (r : jsstring) :
  rev (trim s) = c :: r -> is_space c = false.
Proof.
  unfold trim. rewrite rev_involutive. apply trim_start_head.
Qed.

(** Trimming what has no white space at either end changes nothing. *)
Lemma trim_keeps (s : jsstring) :
  (forall c r, s = c :: r -> is_space c = false) ->
  (forall c r, rev s = c :: r -> is_space c = false) ->
  trim s = s.
Proof.
  intros Hfirst Hlast. unfold trim.
  rewrite (trim_start_keeps s Hfirst), (trim_start_keeps (rev s) Hlast).
  apply rev_involutive.
Qed.

Lemma trim_idempotent (s : jsstring) : trim (trim s) = trim s.
Proof.
  apply trim_keeps; [apply trim_first | apply trim_last].
Qed.

Lemma split_from_length (sep : jschar) (s cur : jsstring) :
  length (split_from sep cur s) = S (count_occ N.eq_dec s sep).
Proof.
  revert cur. induction s as [|c s IH]; intros cur; [reflexivity|].
  cbn [split_from count_occ].
  destruct (N.eqb_spec c sep) as [->|Hne].
  - destruct (N.eq_dec sep sep); [|congruence]. cbn. now rewrite IH.
  - destruct (N.eq_dec c sep); [congruence|]. apply IH.
Qed.

Section Startup.

Variable rnd : nat -> Q.
Variable txt : jsstring -> jsstring.
Variable pInt : option jsstring -> option Z.

Hypothesis rnd_unit : forall k, (0 <= rnd k)%Q /\ (rnd k < 1)%Q.




(** X7.  An element that carries a [data-words] attribute always gets a
    rotation, the empty attribute included: [initKineticText] constructs a
    rotator over the comma-separated fields, each trimmed; the list is
    never empty, the interval is the parsed [data-interval], or 3000 when
    that is absent, not a number or 0, and the first transition, towards
    the first field, is started before the call returns. *)
Theorem present_words_attribute_starts_rotation
        (d : Dataset) (e : Element) (s : jsstring) :
  data_words d = Some s ->
  exists r h,
    initKineticText rnd txt pInt d (fresh_host e) = Normal (Some r, h) /\
    words r = map trim (split comma s) /\ words r <> [] /\
    interval r = dataset_interval pInt d /\ interval r <> 0 /\
    length (promises h) = 1%nat /\
    js_array_index (words r) 0
    = Some (concat (map to (queue (scrambler r)))).
Proof.
  intros Hd. unfold initKineticText.
  assert (Hws : dataset_words d = map trim (split comma s)).
  { unfold dataset_words. now rewrite Hd. }
  rewrite Hws.
  destruct (map trim (split comma s)) as [|w0 ws] eqn:Hsplit.
  { apply map_eq_nil in Hsplit. now apply split_from_nonempty in Hsplit. }
  replace (0 <? js_length (w0 :: ws)) with true
    by (unfold js_length; cbn [length]; symmetry; apply Z.ltb_lt; lia).
  unfold new_WordRotator, WordRotator_start, next, next_transition.
  cbn [words currentIndex scrambler initial_rotator js_array_index Z.ltb
         Z.compare Z.to_nat nth_error].
  destruct (initial_ok txt e) as [Hok _].
  destruct (setText_outcome rnd txt new_TextScramble (fresh_host e) w0 Hok)
    as (t1 & h1 & Hs & _ & _ & _ & Hplan & _ & Hlen & _).
  rewrite Hs. cbn [bind]. eexists _, _. split; [reflexivity|].
  cbn [words interval scrambler with_currentIndex with_scrambler
         initial_rotator opt_interval].
  split; [reflexivity|]. split; [discriminate|]. split; [reflexivity|].
  split.
  { unfold dataset_interval.
    destruct (pInt (data_interval d)) as [[|i|i]|]; discriminate. }
  split.
  { unfold promise_then.
    destruct (nth_error (promises h1) (length (promises (fresh_host e))))
      as [pr|]; [|exact Hlen].
    destruct (pstate pr); cbn [promises with_promises with_microtasks];
      [rewrite length_list_set|]; exact Hlen. }
  rewrite (same_plan_map_to _ _ Hplan), session_queue_target. reflexivity.
Qed.

End Startup.

(** X8.  The word list read from a [data-words] attribute has one word
    more than the attribute has commas, and no word begins or ends with
    white space. *)
Theorem dataset_words_are_trimmed_fields (d : Dataset) (s : jsstring) :
  data_words d = Some s ->
  length (dataset_words d) = S (count_occ N.eq_dec s comma) /\
  forall w c rest,
    In w (dataset_words d) ->
    w = c :: rest \/ rev w = c :: rest ->
    is_space c = false.
Proof.
  intros Hd. unfold dataset_words. rewrite Hd. split.
  - rewrite length_map. apply split_from_length.
  - intros w c rest Hin Hends.
    apply in_map_iff in Hin. destruct Hin as (f & <- & _).
    destruct Hends as [H|H];
      [exact (trim_first _ _ _ H) | exact (trim_last _ _ _ H)].
Qed.

(** * splitText *)

Lemma jsstring_eqb_eq (a b : jsstring) : jsstring_eqb a b = true <-> a = b.
Proof.
  unfold jsstring_eqb. destruct (list_eq_dec N.eq_dec a b);
    split; congruence.
Qed.

Lemma jsstring_eqb_neq (a b : jsstring) : a <> b -> jsstring_eqb a b = false.
Proof.
  intros H. unfold jsstring_eqb. destruct (list_eq_dec N.eq_dec a b);
    congruence.
Qed.

Lemma span_text_shown (c : jschar) :
  (if jsstring_eqb [c] [space] then [nbsp] else [c]) = [shown_unit c].
Proof.
  unfold shown_unit. destruct (N.eqb_spec c space) as [->|Hne].
  - reflexivity.
  - rewrite jsstring_eqb_neq by congruence. reflexivity.
Qed.

Lemma char_spans_nth (text : jsstring) :
  forall (i : Z) (j : nat) (c : jschar),
    nth_error text j = Some c ->
    nth_error (char_spans (map (fun u => [u]) text) i) j =
    Some (SpanNode {| className := str_char;
                      customProperty := (str_char_index, i + Z.of_nat j);
                      spanText := [shown_unit c];
                      ariaHidden := str_true |}).
Proof.
  induction text as [|a text IH]; intros i [|j] c H; cbn in H;
    try discriminate.
  - injection H as ->. cbn [map char_spans nth_error].
    rewrite span_text_shown, Z.add_0_r. reflexivity.
  - cbn [map char_spans nth_error]. rewrite (IH (i + 1) j c H).
    do 3 f_equal. f_equal. lia.
Qed.

Lemma char_spans_text (text : jsstring) (i : Z) :
  concat (map node_text (char_spans (map (fun u => [u]) text) i)) =
  map shown_unit text.
Proof.
  revert i. induction text as [|a text IH]; intros i; [reflexivity|].
  cbn [map char_spans concat node_text spanText].
  rewrite span_text_shown, IH. reflexivity.
Qed.

Lemma char_spans_length (text : jsstring) (i : Z) :
  length (char_spans (map (fun u => [u]) text) i) = length text.
Proof.
  revert i. induction text as [|a text IH]; intros i; [reflexivity|].
  cbn. now rewrite IH.
Qed.

Lemma shown_unit_idempotent (c : jschar) :
  shown_unit (shown_unit c) = shown_unit c.
Proof.
  unfold shown_unit. destruct (N.eqb_spec c space) as [->|Hne];
    [reflexivity|]. destruct (N.eqb_spec c space); congruence.
Qed.

Lemma shown_unit_keeps (c : jschar) : is_space c = false -> shown_unit c = c.
Proof.
  unfold shown_unit. destruct (N.eqb_spec c space) as [->|Hne];
    [discriminate | reflexivity].
Qed.

Lemma char_spans_shown (text : jsstring) (i : Z) :
  char_spans (map (fun u => [u]) (map shown_unit text)) i =
  char_spans (map (fun u => [u]) text) i.
Proof.
  revert i. induction text as [|a text IH]; intros i; [reflexivity|].
  cbn [map char_spans]. rewrite !span_text_shown, shown_unit_idempotent, IH.
  reflexivity.
Qed.

(** The text with every space shown as a no-break space is still trimmed. *)
Lemma trim_shown (s : jsstring) :
  trim (map shown_unit (trim s)) = map shown_unit (trim s).
Proof.
  apply trim_keeps.
  - intros c r H. destruct (trim s) as [|a u] eqn:E; [discriminate|].
    cbn in H. injection H as <- _.
    pose proof (trim_first s a u E) as Ha.
    now rewrite shown_unit_keeps.
  - intros c r H. rewrite <- map_rev in H.
    destruct (rev (trim s)) as [|a u] eqn:E; [discriminate|].
    cbn in H. injection H as <- _.
    pose proof (trim_last s a u E) as Ha.
    now rewrite shown_unit_keeps.
Qed.

Lemma join_split_from (sep : jschar) (s cur : jsstring) :
  join sep (split_from sep cur s) = cur ++ s.
Proof.
  revert cur. induction s as [|c s IH]; intros cur.
  - cbn. now rewrite app_nil_r.
  - cbn [split_from]. destruct (N.eqb_spec c sep) as [->|Hne].
    + cbn [join]. specialize (IH []).
      destruct (split_from sep [] s) as [|w rest] eqn:E.
      * now apply split_from_nonempty in E.
      * rewrite IH. reflexivity.
    + rewrite IH, <- app_assoc. reflexivity.
Qed.


(** What [word_spans] appends for the words from index [i] to the last. *)
Lemma word_spans_facts (ws : list jsstring) :
  forall i n : Z,
    n = i + js_length ws ->
    concat (map node_text (word_spans ws i n)) = join space ws /\
    length (filter is_span (word_spans ws i n)) = length ws /\
    length (word_spans ws i n) = (2 * length ws - 1)%nat /\
    Forall (fun nd => match nd with
                      | TextNode data => data = [space]
                      | SpanNode sp =>
                          className sp = str_word /\ In (spanText sp) ws
                      end) (word_spans ws i n).
Proof.
  unfold js_length.
  induction ws as [|w rest IH]; intros i n Hn.
  - cbn. auto.
  - cbn [word_spans]. cbn [length] in Hn. rewrite Nat2Z.inj_succ in Hn.
    destruct (IH (i + 1) n ltac:(lia)) as (Ht & Hs & Hl & Hall).
    assert (Hall' : Forall (fun nd => match nd with
                                      | TextNode data => data = [space]
                                      | SpanNode sp =>
                                          className sp = str_word /\
                                          In (spanText sp) (w :: rest)
                                      end) (word_spans rest (i + 1) n)).
    { eapply Forall_impl; [|exact Hall].
      intros [sp|data]; [|auto]. intros [H1 H2]. split; [assumption|].
      right. assumption. }
    destruct rest as [|w' rest'].
    + destruct (Z.ltb_spec i (n - 1)); [cbn [length] in Hn; lia|].
      cbn [word_spans app map concat node_text spanText join filter is_span
             length].
      split; [apply app_nil_r|]. split; [reflexivity|].
      split; [reflexivity|].
      constructor; [|constructor]. cbn. auto.
    + destruct (Z.ltb_spec i (n - 1)); [|cbn [length] in Hn; lia].
      cbn [app map concat node_text spanText join filter is_span length].
      rewrite Ht, Hs, Hl. cbn [length].
      split; [reflexivity|]. split; [reflexivity|]. split; [lia|].
      constructor; [cbn; auto|]. constructor; [reflexivity|]. exact Hall'.
Qed.

Lemma splitText_texts (element : SplitElement) :
  element_text (splitText element None)
  = map shown_unit (trim (element_text element)) /\
  element_text (splitText element (Some str_words))
  = trim (element_text element).
Proof.
  split.
  - apply (char_spans_text (trim (element_text element)) 0).
  - destruct (word_spans_facts (split space (trim (element_text element))) 0
                (js_length (split space (trim (element_text element))))
                ltac:(lia)) as (Ht & _).
    change (concat (map node_text
                      (word_spans (split space (trim (element_text element)))
                         0
                         (js_length
                            (split space (trim (element_text element))))))
            = trim (element_text element)).
    rewrite Ht. apply join_split_from.
Qed.

(** X9.  In character mode, the default, [splitText] labels the element
    with its trimmed text and replaces its content by one span per code
    unit of that text, in order: the [i]-th span has class [char], the
    custom property [--char-index] set to [i], is hidden from assistive
    technology, and shows the unit, or a no-break space for a space.  The
    element's text afterwards has the length of the trimmed text. *)
Theorem splitText_chars_one_span_per_unit
        (element : SplitElement) (type : option jsstring) :
  type = None \/ type = Some str_chars ->
  let text := trim (element_text element) in
  ariaLabel (splitText element type) = Some text /\
  length (childNodes (splitText element type)) = length text /\
  element_text (splitText element type) = map shown_unit text /\
  forall (i : nat) (c : jschar),
    nth_error text i = Some c ->
    nth_error (childNodes (splitText element type)) i =
    Some (SpanNode {| className := str_char;
                      customProperty := (str_char_index, Z.of_nat i);
                      spanText := [shown_unit c];
                      ariaHidden := str_true |}).
Proof.
  intros Hty text.
  assert (Heq : childNodes (splitText element type)
                = char_spans (map (fun u => [u]) text) 0).
  { destruct Hty as [-> | ->]; reflexivity. }
  split; [destruct Hty as [-> | ->]; reflexivity|].
  change (element_text (splitText element type))
    with (concat (map node_text (childNodes (splitText element type)))).
  rewrite Heq.
  split; [apply char_spans_length|].
  split; [apply char_spans_text|].
  intros i c Hi. exact (char_spans_nth text 0 i c Hi).
Qed.


(** X12.  Splitting again changes nothing that shows: a second call in
    character mode builds the same spans as the first (only the label now
    has no-break spaces for spaces), and a second call in word mode leaves
    the element exactly as the first did. *)
Theorem splitText_twice (element : SplitElement) :
  childNodes (splitText (splitText element None) None)
  = childNodes (splitText element None) /\
  ariaLabel (splitText (splitText element None) None)
  = Some (map shown_unit (trim (element_text element))) /\
  splitText (splitText element (Some str_words)) (Some str_words)
  = splitText element (Some str_words).
Proof.
  destruct (splitText_texts element) as (Hc & Hw).
  assert (Hagain : trim (element_text (splitText element None))
                   = map shown_unit (trim (element_text element))).
  { rewrite Hc. apply trim_shown. }
  split; [|split].
  - change (char_spans
              (map (fun u => [u])
                   (trim (element_text (splitText element None)))) 0
            = char_spans
                (map (fun u => [u]) (trim (element_text element))) 0).
    rewrite Hagain. apply char_spans_shown.
  - change (Some (trim (element_text (splitText element None)))
            = Some (map shown_unit (trim (element_text element)))).
    now rewrite Hagain.
  - unfold splitText at 1. rewrite Hw, trim_idempotent. reflexivity.
Qed.

(** X11.  With a [type] other than ['chars'] and ['words'], [splitText]
    still empties the element and labels it with the trimmed text, but
    builds nothing: the text is gone from the content, and a later call,
    whatever its type, finds an empty text and overwrites the label with
    the empty string. *)
Theorem splitText_other_type_drops_text
        (element : SplitElement) (type' : jsstring)
        (later : option jsstring) :
  type' <> str_chars -> type' <> str_words ->
  childNodes (splitText element (Some type')) = [] /\
  ariaLabel (splitText element (Some type'))
  = Some (trim (element_text element)) /\
  element_text (splitText (splitText element (Some type')) later) = [] /\
  ariaLabel (splitText (splitText element (Some type')) later) = Some [].
Proof.
  intros Hc Hw.
  assert (Hfirst : splitText element (Some type')
                   = {| childNodes := [];
                        ariaLabel := Some (trim (element_text element)) |}).
  { unfold splitText. rewrite !jsstring_eqb_neq by assumption. reflexivity. }
  rewrite Hfirst. split; [reflexivity|]. split; [reflexivity|].
  unfold splitText, element_text. cbn [childNodes map concat].
  change (trim []) with (@nil jschar).
  destruct (jsstring_eqb _ str_chars), (jsstring_eqb _ str_words);
    split; reflexivity.
Qed.

(** * Typewriter *)

Lemma firstn_charAt (T : jsstring) (i : nat) :
  (i < length T)%nat ->
  firstn i T ++ charAt T (Z.of_nat i) = firstn (S i) T.
Proof.
  unfold charAt. rewrite or_empty_index.
  revert i. induction T as [|c T IH]; intros i Hi; [cbn in Hi; lia|].
  destruct i as [|i]; [reflexivity|].
  cbn [firstn nth_error app]. f_equal. apply IH. cbn in Hi. lia.
Qed.

Lemma typing_status_resolved (p : nat) (ps : list Promise) (pr : Promise) :
  nth_error ps p = Some pr ->
  nth_error (resolve_typing p ps) p =
  Some {| pstate := Fulfilled; reactions := reactions pr;
          resolveCalls := S (resolveCalls pr) |}.
Proof.
  intros H. unfold resolve_typing. rewrite H.
  apply nth_error_list_set_eq. apply nth_error_Some. congruence.
Qed.

(** One event moves a typing from a phase to the same or the next one. *)
Lemma typing_step_phase (w : Typewriter) (p : nat) (ev : TypingEvent)
      (page : TypingPage) :
  typing_phase (text w) p page ->
  typing_phase (text w) p (typing_step w ev page).
Proof.
  destruct page as [sh cc ps pt ai lid]. unfold typing_phase, typing_status.
  cbn [shown cursorClass typingPromises pendingTimeouts activeIntervals
         lastTimerId].
  intros [(Hs & Ha & (id & d & Ht) & Hst)
         | [(Ht & (id & sp & i & Ha & Hi & Hs) & Hst)
           | (Hs & Ht & Ha & Hst)]]; subst.
  - (* waiting for the delay *)
    destruct ev as [id'|id']; cbn [typing_step pendingTimeouts
                                     activeIntervals find fst].
    + destruct (Nat.eqb id id') eqn:E.
      * right. left. cbn. rewrite E. cbn.
        split; [reflexivity|]. split; [|assumption].
        exists (S lid), (speed w), 0%nat. cbn.
        split; [reflexivity|]. split; [lia | reflexivity].
      * left. cbn. eauto 10.
    + left. cbn. eauto 10.
  - (* typing *)
    destruct ev as [id'|id']; cbn [typing_step pendingTimeouts
                                     activeIntervals find fst].
    + right. left. cbn. eauto 10.
    + destruct (Nat.eqb id id') eqn:E.
      * apply Nat.eqb_eq in E. subst id'. unfold interval_tick, js_length.
        destruct (Z.ltb_spec (Z.of_nat i) (Z.of_nat (length (text w))))
          as [Hlt|Hge].
        -- right. left. cbn. rewrite Nat.eqb_refl.
           split; [reflexivity|]. split; [|assumption].
           exists id, sp, (S i). rewrite Nat2Z.inj_succ.
           split; [reflexivity|]. split; [lia|].
           apply firstn_charAt. lia.
        -- right. right. cbn. rewrite Nat.eqb_refl. cbn.
           assert (i = length (text w)) by lia. subst i.
           split; [apply firstn_all|]. split; [reflexivity|].
           split; [reflexivity|].
           destruct (nth_error ps p) as [pr|] eqn:Epr; [|discriminate].
           rewrite (typing_status_resolved p _ pr Epr). cbn.
           injection Hst as _ ->. reflexivity.
      * right. left. cbn. eauto 10.
  - (* finished *)
    right. right. destruct ev as [id'|id']; cbn; auto.
Qed.

Lemma typing_exec_phase (w : Typewriter) (p : nat) (es : list TypingEvent) :
  forall page,
    typing_phase (text w) p page ->
    typing_phase (text w) p (typing_exec w es page).
Proof.
  induction es as [|ev es IH]; intros page H; [assumption|].
  cbn [typing_exec]. apply IH, typing_step_phase, H.
Qed.

(** The page right after the constructor and one call of [type]. *)
Lemma typing_begins (o : TypewriterOptions) (page : TypingPage) :
  pendingTimeouts page = [] -> activeIntervals page = [] ->
  let w := fst (new_Typewriter o page) in
  let page1 := snd (type w (snd (new_Typewriter o page))) in
  text w = shown page /\
  fst (type w (snd (new_Typewriter o page))) = length (typingPromises page)
  /\
  typing_phase (shown page) (length (typingPromises page)) page1 /\
  pendingTimeouts page1
  = [(S (lastTimerId page), delay w, length (typingPromises page))] /\
  lastTimerId page1 = S (lastTimerId page).
Proof.
  intros Ht Ha. cbn. rewrite Ht, Ha. cbn.
  split; [reflexivity|]. split; [reflexivity|].
  split; [|auto].
  left. cbn. split; [reflexivity|]. split; [reflexivity|].
  split; [eauto|].
  unfold typing_status. cbn. rewrite nth_error_app2 by lia.
  rewrite Nat.sub_diag. reflexivity.
Qed.

(** X13.  After [new Typewriter(el)] and one call of [type()], whatever
    timers fire and in whatever order, the element always shows a prefix of
    the text it had at construction; the promise is resolved at most once,
    and it is resolved exactly when no timer of the typing is left, at
    which point the element shows the whole text again. *)
Theorem typewriter_shows_prefixes
        (o : TypewriterOptions) (page : TypingPage)
        (es : list TypingEvent) :
  pendingTimeouts page = [] -> activeIntervals page = [] ->
  let w := fst (new_Typewriter o page) in
  let p := fst (type w (snd (new_Typewriter o page))) in
  let page' := typing_exec w es (snd (type w (snd (new_Typewriter o page)))) in
  shown (snd (new_Typewriter o page)) = [] /\
  (exists k, (k <= length (shown page))%nat /\
             shown page' = firstn k (shown page)) /\
  (typing_status p page' = Some (Pending, 0%nat) \/
   typing_status p page' = Some (Fulfilled, 1%nat)) /\
  (typing_status p page' = Some (Fulfilled, 1%nat) <->
   pendingTimeouts page' = [] /\ activeIntervals page' = []) /\
  (typing_status p page' = Some (Fulfilled, 1%nat) ->
   shown page' = shown page).
Proof.
  intros Ht Ha w p page'.
  destruct (typing_begins o page Ht Ha) as (Hw & Hp & Hphase & _).
  fold w in Hw, Hp. fold p in Hp.
  assert (H : typing_phase (text w) p page').
  { apply typing_exec_phase. rewrite Hw, Hp. exact Hphase. }
  rewrite Hw in H. split; [reflexivity|].
  destruct H as [(Hs & Hact & (id & d & Htm) & Hst)
                | [(Htm & (id & sp & i & Hact & Hi & Hs) & Hst)
                  | (Hs & Htm & Hact & Hst)]].
  - split; [exists 0%nat; split; [lia | rewrite Hs; reflexivity]|].
    split; [auto|]. rewrite Hst, Htm. split; [|discriminate].
    split; [discriminate | intros [H _]; discriminate].
  - split; [exists i; auto|].
    split; [auto|]. rewrite Hst, Hact. split; [|discriminate].
    split; [discriminate | intros [_ H]; discriminate].
  - split; [exists (length (shown page)); split;
            [lia | rewrite Hs; symmetry; apply firstn_all]|].
    split; [auto|]. split; [|auto]. split; auto.
Qed.

Lemma ticks_when_finished (w : Typewriter) (id k : nat) (page : TypingPage) :
  activeIntervals page = [] ->
  typing_exec w (repeat (IntervalTick id) k) page = page.
Proof.
  intros Ha. induction k as [|k IH]; [reflexivity|].
  cbn [repeat typing_exec typing_step]. rewrite Ha. cbn [find]. exact IH.
Qed.

(** The interval of a typing fired [k] more times, from [i] units shown. *)
Lemma ticks_while_typing (w : Typewriter) (p id : nat) (sp : Z) (k : nat) :
  forall (page : TypingPage) (i : nat),
    pendingTimeouts page = [] ->
    activeIntervals page = [(id, sp, Z.of_nat i, p)] ->
    (i <= length (text w))%nat ->
    shown page = firstn i (text w) ->
    typing_status p page = Some (Pending, 0%nat) ->
    let page' := typing_exec w (repeat (IntervalTick id) k) page in
    pendingTimeouts page' = [] /\
    if (i + k <=? length (text w))%nat then
      shown page' = firstn (i + k) (text w) /\
      activeIntervals page' = [(id, sp, Z.of_nat (i + k), p)] /\
      typing_status p page' = Some (Pending, 0%nat)
    else
      shown page' = text w /\ activeIntervals page' = [] /\
      typing_status p page' = Some (Fulfilled, 1%nat).
Proof.
  induction k as [|k IH]; intros page i Ht Ha Hi Hs Hst.
  - cbn [repeat typing_exec]. rewrite Nat.add_0_r.
    destruct (Nat.leb_spec i (length (text w))); [auto | lia].
  - cbn zeta. cbn [repeat typing_exec].
    assert (Hphase : typing_phase (text w) p page).
    { right. left. split; [assumption|]. split; [|assumption].
      exists id, sp, i. auto. }
    destruct (Nat.eq_dec i (length (text w))) as [Hlast|Hmore].
    + (* every unit is shown: this tick clears the interval and resolves *)
      assert (Hstep : typing_step w (IntervalTick id) page
                      = interval_tick w id (Z.of_nat i) p page).
      { cbn [typing_step]. rewrite Ha. cbn. now rewrite Nat.eqb_refl. }
      rewrite Hstep. unfold interval_tick, js_length.
      destruct (Z.ltb_spec (Z.of_nat i) (Z.of_nat (length (text w))));
        [lia|].
      rewrite ticks_when_finished
        by (cbn; rewrite Ha; cbn; now rewrite Nat.eqb_refl).
      cbn [shown pendingTimeouts activeIntervals].
      destruct (Nat.leb_spec (i + S k) (length (text w))); [lia|].
      split; [assumption|].
      split; [rewrite Hs, Hlast; apply firstn_all|].
      split; [rewrite Ha; cbn; now rewrite Nat.eqb_refl|].
      unfold typing_status in *. cbn [typingPromises].
      destruct (nth_error (typingPromises page) p) as [pr|] eqn:Epr;
        [|discriminate].
      rewrite (typing_status_resolved p _ pr Epr). cbn.
      injection Hst as _ ->. reflexivity.
    + assert (Hstep : typing_step w (IntervalTick id) page
                      = interval_tick w id (Z.of_nat i) p page).
      { cbn [typing_step]. rewrite Ha. cbn. now rewrite Nat.eqb_refl. }
      rewrite Hstep. unfold interval_tick, js_length.
      destruct (Z.ltb_spec (Z.of_nat i) (Z.of_nat (length (text w))));
        [|lia].
      match goal with
      | |- context [typing_exec w _ ?pg] =>
          specialize (IH pg (S i))
      end.
      cbn [shown pendingTimeouts activeIntervals typingPromises] in IH.
      replace (i + S k)%nat with (S i + k)%nat by lia.
      apply IH.
      * assumption.
      * rewrite Ha. cbn [map fst snd]. rewrite Nat.eqb_refl.
        repeat f_equal. lia.
      * lia.
      * rewrite Hs. apply firstn_charAt. lia.
      * exact Hst.
Qed.

(** X14.  One [type()] call types the text back unit by unit: once its
    timeout has expired, after [k] firings of its interval the element
    shows the first [k] units of the original text and the promise is
    pending, for every [k] up to the length of the text; the firing after
    that, the one numbered length + 1, clears the interval and resolves
    the promise, the element showing the whole text.  An empty text takes
    that one firing. *)
Theorem typewriter_types_text_back
        (o : TypewriterOptions) (page : TypingPage) (k : nat) :
  pendingTimeouts page = [] -> activeIntervals page = [] ->
  let w := fst (new_Typewriter o page) in
  let p := fst (type w (snd (new_Typewriter o page))) in
  let timeout := S (lastTimerId page) in
  let interval := S (S (lastTimerId page)) in
  let page' :=
    typing_exec w (DelayElapsed timeout :: repeat (IntervalTick interval) k)
                (snd (type w (snd (new_Typewriter o page)))) in
  pendingTimeouts page' = [] /\
  if (k <=? length (shown page))%nat then
    shown page' = firstn k (shown page) /\
    activeIntervals page' = [(interval, speed w, Z.of_nat k, p)] /\
    typing_status p page' = Some (Pending, 0%nat)
  else
    shown page' = shown page /\ activeIntervals page' = [] /\
    typing_status p page' = Some (Fulfilled, 1%nat).
Proof.
  intros Ht Ha w p timeout interval page'.
  subst page'. cbn [typing_exec].
  assert (Hw : text w = shown page) by reflexivity.
  rewrite <- Hw.
  apply (ticks_while_typing w p interval (speed w) k _ 0%nat).
  - cbn. rewrite Ht. cbn. now rewrite Nat.eqb_refl.
  - cbn. rewrite Ht, Ha. cbn. rewrite Nat.eqb_refl. reflexivity.
  - lia.
  - cbn. rewrite Ht. cbn. now rewrite Nat.eqb_refl.
  - unfold typing_status. cbn. rewrite Ht. cbn. rewrite Nat.eqb_refl. cbn.
    rewrite nth_error_app2 by lia. rewrite Nat.sub_diag. reflexivity.
Qed.

(** * Mobile navigation *)

Lemma nav_step_keeps_sync (ev : NavEvent) (page : NavPage) :
  nav_in_sync page -> nav_in_sync (nav_step true true ev page).
Proof.
  intros H. unfold nav_step. cbn [negb orb].
  destruct ev as [| |key|width].
  - destruct (menuOpen page); repeat split.
  - repeat split.
  - destruct (jsstring_eqb key str_Escape && menuOpen page);
      [repeat split | assumption].
  - destruct ((768 <? width) && menuOpen page); [repeat split | assumption].
Qed.

Lemma nav_exec_keeps_sync (es : list NavEvent) :
  forall page, nav_in_sync page -> nav_in_sync (nav_exec true true es page).
Proof.
  induction es as [|ev es IH]; intros page H; [assumption|].
  cbn [nav_exec]. apply IH, nav_step_keeps_sync, H.
Qed.

(** X15.  Once the toggle or a link of the menu has been clicked, the class
    on the toggle, its [aria-expanded] attribute, the class on the menu and
    the class on the body agree, whatever they were when the page loaded and
    whatever events follow. *)
Theorem nav_flags_agree_after_first_click
        (es : list NavEvent) (page : NavPage) :
  In ToggleClick es \/ In LinkClick es ->
  nav_in_sync (nav_exec true true es page).
Proof.
  revert page. induction es as [|ev es IH]; intros page Hin.
  - destruct Hin as [[]|[]].
  - cbn [nav_exec].
    assert (Hclick : ev = ToggleClick \/ ev = LinkClick ->
                     nav_in_sync (nav_step true true ev page)).
    { intros [-> | ->]; cbn.
      - destruct (menuOpen page); repeat split.
      - repeat split. }
    destruct Hin as [[Hev|Hin]|[Hev|Hin]].
    + apply nav_exec_keeps_sync, Hclick. auto.
    + apply IH. auto.
    + apply nav_exec_keeps_sync, Hclick. auto.
    + apply IH. auto.
Qed.

(** X16.  Only a click on the toggle opens the menu: if the menu is closed
    and, some events later, open, then both the toggle and the menu were
    found when the listeners were bound and a toggle click is among the
    events.  No key, link click or resize ever opens it. *)
Theorem nav_menu_opens_by_toggle_only
        (toggle mobileMenu : bool) (es : list NavEvent) (page : NavPage) :
  menuOpen page = false ->
  menuOpen (nav_exec toggle mobileMenu es page) = true ->
  toggle = true /\ mobileMenu = true /\ In ToggleClick es.
Proof.
  revert page. induction es as [|ev es IH]; intros page Hclosed Hopen.
  - cbn in Hopen. congruence.
  - cbn [nav_exec] in Hopen.
    assert (Hcases : (toggle = true /\ mobileMenu = true /\ ev = ToggleClick)
                     \/ menuOpen (nav_step toggle mobileMenu ev page)
                        = false).
    { unfold nav_step. destruct toggle, mobileMenu; cbn [negb orb]; auto.
      destruct ev as [| |key|width]; auto;
        rewrite Hclosed, andb_false_r; auto. }
    destruct Hcases as [(-> & -> & ->) | Hstays].
    + repeat split. left. reflexivity.
    + destruct (IH _ Hstays Hopen) as (H1 & H2 & H3).
      repeat split; auto. right. assumption.
Qed.

(** * Closed instances of the further properties *)



Lemma sample_rotation_reached :
  rotation sample_random sample_text_of_html sample_words no_options
           empty_element [Tick]
  = Normal (fst sample_rotation, snd sample_rotation).
Proof. vm_compute; reflexivity. Qed.

Lemma sample_delay_reached :
  rotation sample_random sample_text_of_html sample_words no_options
           empty_element (repeat Tick 40)
  = Normal (fst sample_delay, snd sample_delay).
Proof. vm_compute; reflexivity. Qed.

Lemma sample_words_nonempty : sample_words <> [].
Proof. discriminate. Qed.


Lemma rotation_schedules_one_step_witness :
  sample_words <> [] /\
  rotation sample_random sample_text_of_html sample_words no_options
           empty_element (repeat Tick 40)
  = Normal (fst sample_delay, snd sample_delay) /\
  (length (rafCallbacks (snd sample_delay)) <= 1)%nat /\
  (length (timers (snd sample_delay)) <= 1)%nat /\
  microtasks (snd sample_delay) = [] /\
  (forall id d,
      In (id, d) (timers (snd sample_delay)) ->
      rafCallbacks (snd sample_delay) = [] /\
      timeoutId (fst sample_delay) = Some id /\
      d = match opt_interval no_options with Some i => i | None => 3000 end).
Proof.
  split; [exact sample_words_nonempty|].
  split; [exact sample_delay_reached|].
  apply (rotation_schedules_one_step sample_random sample_text_of_html
           sample_words no_options empty_element (repeat Tick 40)
           (fst sample_delay) (snd sample_delay) sample_words_nonempty
           sample_delay_reached).
Defined.

Lemma rotation_runs_until_stopped_witness :
  sample_words <> [] /\
  ~ In CallStop [Tick] /\
  rotation sample_random sample_text_of_html sample_words no_options
           empty_element [Tick]
  = Normal (fst sample_rotation, snd sample_rotation) /\
  (rafCallbacks (snd sample_rotation) <> [] \/
   timers (snd sample_rotation) <> []).
Proof.
  assert (Hno : ~ In CallStop [Tick]).
  { intros [H|[]]. discriminate. }
  split; [exact sample_words_nonempty|]. split; [exact Hno|].
  split; [exact sample_rotation_reached|].
  apply (rotation_runs_until_stopped sample_random sample_text_of_html
           sample_words no_options empty_element [Tick]
           (fst sample_rotation) (snd sample_rotation) sample_words_nonempty
           Hno sample_rotation_reached).
Defined.

Lemma stop_during_delay_ends_rotation_witness :
  sample_words <> [] /\
  rotation sample_random sample_text_of_html sample_words no_options
           empty_element (repeat Tick 40)
  = Normal (fst sample_delay, snd sample_delay) /\
  timers (snd sample_delay) <> [] /\
  exists r' h',
    rot_step sample_random sample_text_of_html CallStop (fst sample_delay)
             (snd sample_delay) = Normal (r', h') /\
    timers h' = [] /\ rafCallbacks h' = [] /\
    dom h' = dom (snd sample_delay) /\
    forall es' : list RotEvent,
      rot_exec sample_random sample_text_of_html es' r' h' = Normal (r', h').
Proof.
  assert (Htm : timers (snd sample_delay) <> []) by discriminate.
  split; [exact sample_words_nonempty|].
  split; [exact sample_delay_reached|]. split; [exact Htm|].
  apply (stop_during_delay_ends_rotation sample_random sample_text_of_html
           sample_words no_options empty_element (repeat Tick 40)
           (fst sample_delay) (snd sample_delay) sample_words_nonempty
           sample_delay_reached Htm).
Defined.

Lemma present_words_attribute_starts_rotation_witness :
  data_words sample_dataset = Some [65; 44; 32; 66]%N /\
  exists r h,
    initKineticText sample_random sample_text_of_html sample_parseInt
                    sample_dataset (fresh_host empty_element)
    = Normal (Some r, h) /\
    words r = [[65%N]; [66%N]] /\ interval r = 3000.
Proof.
  split; [reflexivity|].
  destruct (present_words_attribute_starts_rotation sample_random
              sample_text_of_html sample_parseInt sample_dataset
              empty_element [65; 44; 32; 66]%N eq_refl)
    as (r & h & Hinit & Hw & _ & Hint & _).
  exists r, h. split; [exact Hinit|]. split.
  - rewrite Hw. reflexivity.
  - rewrite Hint. reflexivity.
Defined.

Lemma dataset_words_are_trimmed_fields_witness :
  data_words sample_dataset = Some [65; 44; 32; 66]%N /\
  length (dataset_words sample_dataset) = 2%nat.
Proof.
  split; [reflexivity|].
  destruct (dataset_words_are_trimmed_fields sample_dataset
              [65; 44; 32; 66]%N eq_refl) as (Hlen & _).
  exact Hlen.
Defined.

Lemma splitText_chars_one_span_per_unit_witness :
  (@None jsstring = None \/ None = Some str_chars) /\
  ariaLabel (splitText sample_split_element None) = Some [97; 32; 98]%N /\
  length (childNodes (splitText sample_split_element None)) = 3%nat /\
  element_text (splitText sample_split_element None) = [97; 160; 98]%N.
Proof.
  assert (Hty : @None jsstring = None \/ None = Some str_chars)
    by (left; reflexivity).
  split; [exact Hty|].
  destruct (splitText_chars_one_span_per_unit sample_split_element None Hty)
    as (Hl & Hn & Ht & _).
  split; [exact Hl|]. split; [exact Hn | exact Ht].
Defined.

Lemma splitText_other_type_drops_text_witness :
  str_lines <> str_chars /\ str_lines <> str_words /\
  childNodes (splitText sample_split_element (Some str_lines)) = [] /\
  ariaLabel (splitText sample_split_element (Some str_lines))
  = Some [97; 32; 98]%N /\
  element_text
    (splitText (splitText sample_split_element (Some str_lines)) None) = []
  /\
  ariaLabel
    (splitText (splitText sample_split_element (Some str_lines)) None)
  = Some [].
Proof.
  assert (H1 : str_lines <> str_chars) by discriminate.
  assert (H2 : str_lines <> str_words) by discriminate.
  split; [exact H1|]. split; [exact H2|].
  apply (splitText_other_type_drops_text sample_split_element str_lines None
           H1 H2).
Defined.

Lemma typewriter_shows_prefixes_witness :
  pendingTimeouts sample_typing_page = [] /\
  activeIntervals sample_typing_page = [] /\
  exists k,
    (k <= 2)%nat /\
    shown (typing_exec (fst (new_Typewriter default_typing sample_typing_page))
             [DelayElapsed 1; IntervalTick 2; IntervalTick 7]
             (snd (type (fst (new_Typewriter default_typing
                                sample_typing_page))
                        (snd (new_Typewriter default_typing
                                sample_typing_page)))))
    = firstn k [65; 66]%N.
Proof.
  split; [reflexivity|]. split; [reflexivity|].
  destruct (typewriter_shows_prefixes default_typing sample_typing_page
              [DelayElapsed 1; IntervalTick 2; IntervalTick 7]
              eq_refl eq_refl) as (_ & Hk & _).
  exact Hk.
Defined.

Lemma typewriter_types_text_back_witness :
  pendingTimeouts sample_typing_page = [] /\
  activeIntervals sample_typing_page = [] /\
  shown (typing_exec (fst (new_Typewriter default_typing sample_typing_page))
           (DelayElapsed 1 :: repeat (IntervalTick 2) 3)
           (snd (type (fst (new_Typewriter default_typing
                              sample_typing_page))
                      (snd (new_Typewriter default_typing
                              sample_typing_page)))))
  = [65; 66]%N.
Proof.
  split; [reflexivity|]. split; [reflexivity|].
  destruct (typewriter_types_text_back default_typing sample_typing_page 3
              eq_refl eq_refl) as (_ & Hdone).
  exact (proj1 Hdone).
Defined.

Lemma nav_flags_agree_after_first_click_witness :
  (In ToggleClick [Resize 1024; ToggleClick; Keydown str_Escape] \/
   In LinkClick [Resize 1024; ToggleClick; Keydown str_Escape]) /\
  nav_in_sync
    (nav_exec true true [Resize 1024; ToggleClick; Keydown str_Escape]
              sample_nav_page).
Proof.
  assert (Hin : In ToggleClick [Resize 1024; ToggleClick; Keydown str_Escape]
                \/ In LinkClick
                     [Resize 1024; ToggleClick; Keydown str_Escape])
    by (left; right; left; reflexivity).
  split; [exact Hin|].
  apply (nav_flags_agree_after_first_click _ sample_nav_page Hin).
Defined.

Lemma nav_menu_opens_by_toggle_only_witness :
  menuOpen sample_nav_page = false /\
  menuOpen (nav_exec true true [Keydown str_Escape; ToggleClick]
                     sample_nav_page) = true /\
  In ToggleClick [Keydown str_Escape; ToggleClick].
Proof.
  split; [reflexivity|]. split; [reflexivity|].
  apply (nav_menu_opens_by_toggle_only true true
           [Keydown str_Escape; ToggleClick] sample_nav_page eq_refl eq_refl).
Defined.
